(** * gocommerce: the price calculator, the configuration and the token check

    A shallow embedding of [calculator/calculator.go] ([CalculatePrice],
    [Tax.AppliesTo] and [rint]), of [validateConfig] of the package [conf] and
    of [withToken] of the package [api], with the properties of the price, tax
    and discount computation, of the validation and of the header check.

    Go's [uint64] is modelled as [Z] with the wrap-around of every arithmetic
    operation written out; Go's [float64] is modelled by the IEEE 754
    binary64 operations of the Standard Library ([SpecFloat], precision 53,
    [emax] 1024), which compute inside Rocq.  Slices of pointers and interface
    values are taken without nil entries; what the code calls outside the
    repository ([os.Getenv], [url.Parse], [strconv.Atoi],
    [jwt.ParseWithClaims], the clock) is a variable of the section that uses
    it. *)

From Stdlib Require Import ZArith List Ascii String Bool Lia.
From Stdlib Require Import Floats.SpecFloat.
Import ListNotations.

Local Open Scope Z_scope.
Local Open Scope bool_scope.

(** ** Unsigned 64-bit arithmetic *)

Module U64.
Definition modulus : Z := 2 ^ 64.
Definition wrap (z : Z) : Z := z mod modulus.
Definition add (a b : Z) : Z := wrap (a + b).
Definition sub (a b : Z) : Z := wrap (a - b).
Definition mul (a b : Z) : Z := wrap (a * b).
Definition in_range (z : Z) : Prop := 0 <= z < modulus.
End U64.

(** ** binary64 arithmetic *)

Module F64.
Definition float64 := spec_float.
Definition prec : Z := 53.
Definition emax : Z := 1024.

(** The conversion [float64(u)] of an integer: round to nearest, ties to
    even. *)
Definition of_int (z : Z) : float64 := binary_normalize prec emax z 0 false.

Definition add : float64 -> float64 -> float64 := SFadd prec emax.
Definition sub : float64 -> float64 -> float64 := SFsub prec emax.
Definition mul : float64 -> float64 -> float64 := SFmul prec emax.
Definition div : float64 -> float64 -> float64 := SFdiv prec emax.
Definition ltb : float64 -> float64 -> bool := SFltb.
Definition eqb : float64 -> float64 -> bool := SFeqb.

Definition zero : float64 := S754_zero false.
Definition one : float64 := S754_finite false 4503599627370496 (-52).
Definition half : float64 := S754_finite false 4503599627370496 (-53).
Definition neg_half : float64 := S754_finite true 4503599627370496 (-53).
Definition hundred : float64 := S754_finite false 7036874417766400 (-46).

(** [math.Modf]: the integral and the fractional part of [f], both with the
    sign of [f], which sum to [f].  Both parts of a binary64 number are
    binary64 numbers, so neither is rounded. *)
Definition Modf (f : float64) : float64 * float64 :=
  match f with
  | S754_finite s m e =>
      if 0 <=? e then (f, S754_zero s)
      else
        let d := 2 ^ (- e) in
        (binary_normalize prec emax (cond_Zopp s (Zpos m / d)) 0 s,
         binary_normalize prec emax (cond_Zopp s (Zpos m mod d)) e s)
  | S754_zero _ => (f, f)
  | S754_infinity _ => (f, S754_nan)
  | S754_nan => (S754_nan, S754_nan)
  end.

(** The integer obtained from [f] by discarding its fraction, when [f] is
    finite. *)
Definition truncate (f : float64) : option Z :=
  match f with
  | S754_zero _ => Some 0
  | S754_finite s m e =>
      Some (cond_Zopp s (if 0 <=? e then Zpos m * 2 ^ e else Zpos m / 2 ^ (- e)))
  | _ => None
  end.
End F64.

Import F64.

(** ** The data model of the calculator *)

Record ItemPrice := mkItemPrice {
  Quantity : Z;
  Subtotal : Z;
  Discount : Z;
  Taxes : Z;
  Total : Z
}.

Record Price := mkPrice {
  Items : list ItemPrice;
  PSubtotal : Z;
  PDiscount : Z;
  PTaxes : Z;
  PTotal : Z
}.

Record Tax := mkTax {
  Percentage : Z;
  ProductTypes : list string;
  Countries : list string
}.

Record Settings := mkSettings {
  PricesIncludeTaxes : bool;
  SettingsTaxes : list Tax
}.

Record taxAmount := mkTaxAmount {
  price : Z;
  percentage : Z
}.

(** The [Item] interface: what its five methods return. *)
#[warnings="-register-all"]
Inductive Item := mkItem {
  PriceInLowestUnit : Z;
  ProductType : string;
  FixedVAT : Z;
  TaxableItems : list Item;
  GetQuantity : Z
}.

(** The [Coupon] interface: what its four methods return. *)
Record Coupon := mkCoupon {
  ValidForType : string -> bool;
  ValidForPrice : string -> Z -> bool;
  PercentageDiscount : Z;
  FixedDiscount : Z
}.

(** ** [Tax.AppliesTo] *)

(** The loops of [AppliesTo] that look for a string in a slice. *)
Definition contains (l : list string) (x : string) : bool :=
  existsb (fun y => String.eqb y x) l.

Definition AppliesTo (t : Tax) (country productType : string) : bool :=
  let applies :=
    match ProductTypes t with
    | [] => true
    | _ :: _ => contains (ProductTypes t) productType
    end in
  if negb applies then false
  else
    match Countries t with
    | [] => applies
    | _ :: _ => contains (Countries t) country
    end.

(** The loop [for _, t := range settings.Taxes] that stops at the first rule
    which applies. *)
Fixpoint firstApplicable (taxes : list Tax) (country productType : string)
  : option Tax :=
  match taxes with
  | [] => None
  | t :: rest =>
      if AppliesTo t country productType then Some t
      else firstApplicable rest country productType
  end.

Section Calculator.

(** Go leaves the result of converting a floating-point value to an integer
    type that cannot represent it to the implementation; this is that
    result. *)
Variable unrepresentable : float64 -> Z.

(** The conversion [uint64(f)]. *)
Definition to_uint64 (f : float64) : Z :=
  match truncate f with
  | Some z => if (0 <=? z) && (z <? U64.modulus) then z
              else U64.wrap (unrepresentable f)
  | None => U64.wrap (unrepresentable f)
  end.

(** The float [v] that [rint] converts in its last line. *)
Definition rint_float (x : float64) : float64 :=
  let '(v, frac) := Modf x in
  if ltb zero x then
    if ltb half frac || (eqb frac half && negb (to_uint64 v mod 2 =? 0))
    then add v one else v
  else
    if ltb frac neg_half || (eqb frac neg_half && negb (to_uint64 v mod 2 =? 0))
    then sub v one else v.

Definition rint (x : float64) : Z := to_uint64 (rint_float x).

(** [rint(float64(amount) * float64(pct) / 100)], the expression of lines
    119 and 127. *)
Definition percentOf (amount pct : Z) : Z :=
  rint (div (mul (of_int amount) (of_int pct)) hundred).

(** [rint(float64(amount) / (100 + float64(pct)) * 100)], the expression
    of line 116. *)
Definition backOut (amount pct : Z) : Z :=
  rint (mul (div (of_int amount) (add hundred (of_int pct))) hundred).

(** The tax amounts of an item (lines 87 to 108). *)
Definition subItemAmount (settings : Settings) (country : string) (sub : Item)
  : taxAmount :=
  match firstApplicable (SettingsTaxes settings) country (ProductType sub) with
  | Some t => mkTaxAmount (PriceInLowestUnit sub) (Percentage t)
  | None => mkTaxAmount (PriceInLowestUnit sub) 0
  end.

Definition taxAmounts (settings : option Settings) (country : string)
    (item : Item) : list taxAmount :=
  if negb (FixedVAT item =? 0) then
    [mkTaxAmount (PriceInLowestUnit item) (FixedVAT item)]
  else
    match settings with
    | Some st =>
        match TaxableItems item with
        | _ :: _ => map (subItemAmount st country) (TaxableItems item)
        | [] =>
            match firstApplicable (SettingsTaxes st) country (ProductType item) with
            | Some t => [mkTaxAmount (PriceInLowestUnit item) (Percentage t)]
            | None => []
            end
        end
    | None => []
    end.

(** One turn of the loop over the tax amounts (lines 114 to 120). *)
Definition applyTax (includeTaxes : bool) (ip : ItemPrice) (tax : taxAmount)
  : ItemPrice :=
  if includeTaxes then
    let p := backOut (price tax) (percentage tax) in
    mkItemPrice (Quantity ip) (U64.add (Subtotal ip) p) (Discount ip)
      (U64.add (Taxes ip) (percentOf p (percentage tax)))
      (Total ip)
  else
    mkItemPrice (Quantity ip) (Subtotal ip) (Discount ip)
      (U64.add (Taxes ip) (percentOf (price tax) (percentage tax)))
      (Total ip).

(** Lines 110 to 121. *)
Definition applyTaxes (includeTaxes : bool) (ip : ItemPrice)
    (amounts : list taxAmount) : ItemPrice :=
  match amounts with
  | [] => ip
  | _ =>
      let ip0 :=
        if includeTaxes
        then mkItemPrice (Quantity ip) 0 (Discount ip) (Taxes ip) (Total ip)
        else ip in
      fold_left (applyTax includeTaxes) amounts ip0
  end.

(** Lines 122 to 128. *)
Definition applyCoupon (includeTaxes : bool) (coupon : option Coupon)
    (item : Item) (ip : ItemPrice) : ItemPrice :=
  match coupon with
  | Some c =>
      if ValidForType c (ProductType item) then
        let amountToDiscount :=
          if includeTaxes then U64.add (Subtotal ip) (Taxes ip)
          else Subtotal ip in
        mkItemPrice (Quantity ip) (Subtotal ip)
          (percentOf amountToDiscount (PercentageDiscount c))
          (Taxes ip) (Total ip)
      else ip
  | None => ip
  end.

(** Line 130. *)
Definition setTotal (ip : ItemPrice) : ItemPrice :=
  mkItemPrice (Quantity ip) (Subtotal ip) (Discount ip) (Taxes ip)
    (U64.add (U64.sub (Subtotal ip) (Discount ip)) (Taxes ip)).

Definition includesTaxes (settings : option Settings) : bool :=
  match settings with
  | Some st => PricesIncludeTaxes st
  | None => false
  end.

(** The [itemPrice] appended for one item (lines 84 to 130). *)
Definition calculateItem (settings : option Settings) (country : string)
    (coupon : option Coupon) (item : Item) : ItemPrice :=
  let includeTaxes := includesTaxes settings in
  let ip := mkItemPrice (GetQuantity item) (PriceInLowestUnit item) 0 0 0 in
  let ip := applyTaxes includeTaxes ip (taxAmounts settings country item) in
  let ip := applyCoupon includeTaxes coupon item ip in
  setTotal ip.

(** Lines 132 to 137. *)
Definition accumulate (p : Price) (ip : ItemPrice) : Price :=
  mkPrice (Items p ++ [ip])
    (U64.add (PSubtotal p) (U64.mul (Subtotal ip) (Quantity ip)))
    (U64.add (PDiscount p) (U64.mul (Discount ip) (Quantity ip)))
    (U64.add (PTaxes p) (U64.mul (Taxes ip) (Quantity ip)))
    (U64.add (PTotal p) (U64.mul (Total ip) (Quantity ip))).

Definition CalculatePrice (settings : option Settings)
    (country currency : string) (coupon : option Coupon) (items : list Item)
  : Price :=
  let p :=
    fold_left
      (fun p item => accumulate p (calculateItem settings country coupon item))
      items (mkPrice [] 0 0 0 0) in
  mkPrice (Items p) (PSubtotal p) (PDiscount p) (PTaxes p)
    (U64.add (U64.sub (PSubtotal p) (PDiscount p)) (PTaxes p)).

(** ** Definitions used to state the properties *)

(** What one tax amount adds to the taxes of an item. *)
Definition taxOf (includeTaxes : bool) (a : taxAmount) : Z :=
  if includeTaxes
  then percentOf (backOut (price a) (percentage a)) (percentage a)
  else percentOf (price a) (percentage a).

(** The discount base of line 123 to 126. *)
Definition discountBase (includeTaxes : bool) (ip : ItemPrice) : Z :=
  if includeTaxes then U64.add (Subtotal ip) (Taxes ip) else Subtotal ip.

End Calculator.

(** The sum of a list of amounts, accumulated with [+=] from [0]. *)
Definition sum64 (l : list Z) : Z := fold_left U64.add l 0.

(** A rule matches when each of its two filters is empty or contains the
    value looked for. *)
Definition ruleMatches (country productType : string) (t : Tax) : Prop :=
  (ProductTypes t = [] \/ In productType (ProductTypes t)) /\
  (Countries t = [] \/ In country (Countries t)).

(** The percentage of the first rule that applies, [0] when none does. *)
Definition percentageFor (taxes : list Tax) (country productType : string) : Z :=
  match firstApplicable taxes country productType with
  | Some t => Percentage t
  | None => 0
  end.

(** Round half to even of the rational [n / d], for [0 <= n] and [0 < d]:
    with [v] the integral part and [frac] the remainder, round up when
    [frac > 1/2], or when [frac = 1/2] and [v] is odd. *)
Definition round_half_even (n d : Z) : Z :=
  let v := n / d in
  let r := n mod d in
  if (d <? 2 * r) || ((2 * r =? d) && Z.odd v) then v + 1 else v.

(** The same over signed rationals: a negative [n / d] mirrors the positive
    case. *)
Definition round_half_even_signed (n d : Z) : Z :=
  if 0 <=? n then round_half_even n d else - round_half_even (- n) d.


(** ** Definitions used in the analysis of the float operations *)

(** The exponent of the binary64 numbers with [e] digits before the binary
    point. *)
Definition fexp64 (e : Z) : Z := Z.max (e - 53) (-1074).

(** The canonical mantissa of the integer [q], of at most 53 bits. *)
Definition int_mantissa (q : positive) : positive :=
  Z.to_pos (Zpos q * 2 ^ (53 - Zpos (digits2_pos q))).

(** The canonical exponent and mantissa of the number [r * 2 ^ e]. *)
Definition frac_exponent (r : positive) (e : Z) : Z :=
  fexp64 (Zpos (digits2_pos r) + e).

Definition frac_mantissa (r : positive) (e : Z) : positive :=
  Z.to_pos (Zpos r * 2 ^ (e - frac_exponent r e)).

(** The value of a finite binary64 number as the rational
    [numerator / denominator]. *)
Definition numerator (x : float64) : Z :=
  match x with
  | S754_finite s m e => cond_Zopp s (if 0 <=? e then Zpos m * 2 ^ e else Zpos m)
  | _ => 0
  end.

Definition denominator (x : float64) : Z :=
  match x with
  | S754_finite _ _ e => if 0 <=? e then 1 else 2 ^ (- e)
  | _ => 1
  end.

(** The last step of [binary_round_aux]: the rounded mantissa is brought
    back into the format. *)
Definition finish (s : bool) (m : Z) (e : Z) : float64 :=
  let '(mrs, e') := shr_fexp prec emax m e loc_Exact in
  match shr_m mrs with
  | Z0 => S754_zero s
  | Zpos m' => if e' <=? emax - prec then S754_finite s m' e' else S754_infinity s
  | Zneg _ => S754_nan
  end.

(** ** The configuration ([conf]): [validateConfig] *)

Module Conf.

Record JWTConf := mkJWT { jwtSecret : string; jwtAdminGroupName : string }.

Record DBConf := mkDB {
  dbDriver : string;
  dbConnURL : string;
  dbNamespace : string;
  dbAutomigrate : bool
}.

Record APIConf := mkAPI { apiHost : string; apiPort : Z }.

Record LogConf := mkLog { logLevel : string; logFile : string }.

Record MailTexts := mkMailTexts {
  orderConfirmation : string;
  orderReceived : string
}.

Record MailerConf := mkMailer {
  mailerHost : string;
  mailerPort : Z;
  mailerUser : string;
  mailerPass : string;
  mailerAdminEmail : string;
  mailerSubjects : MailTexts;
  mailerTemplates : MailTexts
}.

Record PaymentConf := mkPayment {
  stripeSecretKey : string;
  paypalClientID : string;
  paypalSecret : string;
  paypalEnv : string
}.

Record DownloadsConf := mkDownloads {
  downloadsProvider : string;
  downloadsNetlifyToken : string
}.

Record CouponsConf := mkCoupons {
  couponsURL : string;
  couponsUser : string;
  couponsPassword : string
}.

Record WebhooksConf := mkWebhooks {
  webhookOrder : string;
  webhookPayment : string;
  webhookUpdate : string;
  webhookRefund : string;
  webhookSecret : string
}.

Record Configuration := mkConfiguration {
  SiteURL : string;
  JWT : JWTConf;
  DB : DBConf;
  API : APIConf;
  Log : LogConf;
  Mailer : MailerConf;
  Payment : PaymentConf;
  Downloads : DownloadsConf;
  Coupons : CouponsConf;
  Webhooks : WebhooksConf
}.

(** The assignments [config.DB.ConnURL = ...], [config.DB.Driver = ...] and
    [config.API.Port = ...]. *)
Definition setConnURL (c : Configuration) (u : string) : Configuration :=
  mkConfiguration (SiteURL c) (JWT c)
    (mkDB (dbDriver (DB c)) u (dbNamespace (DB c)) (dbAutomigrate (DB c)))
    (API c) (Log c) (Mailer c) (Payment c) (Downloads c) (Coupons c)
    (Webhooks c).

Definition setDriver (c : Configuration) (d : string) : Configuration :=
  mkConfiguration (SiteURL c) (JWT c)
    (mkDB d (dbConnURL (DB c)) (dbNamespace (DB c)) (dbAutomigrate (DB c)))
    (API c) (Log c) (Mailer c) (Payment c) (Downloads c) (Coupons c)
    (Webhooks c).

Definition setPort (c : Configuration) (p : Z) : Configuration :=
  mkConfiguration (SiteURL c) (JWT c) (DB c) (mkAPI (apiHost (API c)) p)
    (Log c) (Mailer c) (Payment c) (Downloads c) (Coupons c) (Webhooks c).

(** A returned configuration, or the message of the returned error. *)
Inductive result := Ok (c : Configuration) | Err (msg : string).

Section Validate.

(** The environment and the two library functions [validateConfig]
    calls: [os.Getenv], the scheme of [url.Parse] and [strconv.Atoi],
    each of the last two with the text of its error. *)
Variable Getenv : string -> string.
Variable urlScheme : string -> string + string.
Variable Atoi : string -> Z + string.

Definition wrapError (cause msg : string) : string :=
  (msg ++ ": " ++ cause)%string.

Definition validateConfig (config : Configuration) : result :=
  let config :=
    if (dbConnURL (DB config) =? "")%string
       && negb (Getenv "DATABASE_URL" =? "")%string
    then setConnURL config (Getenv "DATABASE_URL")
    else config in
  let driver :=
    if (dbDriver (DB config) =? "")%string
       && negb (dbConnURL (DB config) =? "")%string
    then
      match urlScheme (dbConnURL (DB config)) with
      | inl scheme => Ok (setDriver config scheme)
      | inr err => Err (wrapError err "parsing db connection url")
      end
    else Ok config in
  match driver with
  | Err msg => Err msg
  | Ok config =>
      let port :=
        if (apiPort (API config) =? 0) && negb (Getenv "PORT" =? "")%string
        then
          match Atoi (Getenv "PORT") with
          | inl p => Ok (setPort config p)
          | inr err => Err (wrapError err "formatting PORT into int")
          end
        else Ok config in
      match port with
      | Err msg => Err msg
      | Ok config =>
          if (apiPort (API config) =? 0)
             && (apiHost (API config) =? "")%string
          then Ok (setPort config 8080)
          else Ok config
      end
  end.

End Validate.

End Conf.

(** A configuration that sets nothing, in an environment that sets
    nothing. *)
Definition emptyConfiguration : Conf.Configuration :=
  Conf.mkConfiguration "" (Conf.mkJWT "" "") (Conf.mkDB "" "" "" false)
    (Conf.mkAPI "" 0) (Conf.mkLog "" "")
    (Conf.mkMailer "" 0 "" "" "" (Conf.mkMailTexts "" "") (Conf.mkMailTexts "" ""))
    (Conf.mkPayment "" "" "" "") (Conf.mkDownloads "" "")
    (Conf.mkCoupons "" "" "") (Conf.mkWebhooks "" "" "" "" "").

(** ** The API ([api]): [withToken] *)

Module API.

(** The characters [\S] excludes: tab, line feed, form feed, carriage
    return and space. *)
Definition isSpace (c : ascii) : bool :=
  let n := nat_of_ascii c in
  (n =? 9)%nat || (n =? 10)%nat || (n =? 12)%nat || (n =? 13)%nat
  || (n =? 32)%nat.

Fixpoint noSpace (s : string) : bool :=
  match s with
  | EmptyString => true
  | String c rest => negb (isSpace c) && noSpace rest
  end.

(** What is left of [s] after the prefix [p]. *)
Fixpoint dropPrefix (p s : string) : option string :=
  match p, s with
  | EmptyString, _ => Some s
  | String a p', String b s' =>
      if Ascii.eqb a b then dropPrefix p' s' else None
  | String _ _, EmptyString => None
  end.

(** [bearerRegexp.FindStringSubmatch], for the expression
    [^(?:B|b)earer (\S+$)]: the submatch of a header that matches. *)
Definition bearerToken (authHeader : string) : option string :=
  match authHeader with
  | String c rest =>
      if Ascii.eqb c "B" || Ascii.eqb c "b" then
        match dropPrefix "earer " rest with
        | Some token =>
            if negb (token =? "")%string && noSpace token then Some token
            else None
        | None => None
        end
      else None
  | EmptyString => None
  end.

(** What [jwt.ParseWithClaims] does with the claims [&JWTClaims{}]: it
    returns a token, returns an error, or panics (the embedded
    [*jwt.StandardClaims] stays nil when the token carries no standard claim,
    and validating the claims dereferences it). *)
Inductive parsed (Token : Type) :=
| Parsed (token : Token)
| ParseError (err : string)
| ParsePanic.
Arguments Parsed {Token} token.
Arguments ParseError {Token} err.
Arguments ParsePanic {Token}.

(** What [withToken] does: it returns the context it was given, no context
    after an [UnauthorizedError], or the context with the token, or it does
    not return because the parser panicked. *)
Inductive outcome (Token : Type) :=
| Unchanged
| Unauthorized (msg : string)
| WithToken (token : Token)
| Panicked.
Arguments Unchanged {Token}.
Arguments Unauthorized {Token} msg.
Arguments WithToken {Token} token.
Arguments Panicked {Token}.

Section WithToken.

(** A parsed token with the expiry of its claims, what
    [jwt.ParseWithClaims] does with a string, and the clock. *)
Variable Token : Type.
Variable ExpiresAt : Token -> Z.
Variable ParseWithClaims : string -> parsed Token.
Variable now : Z.

Definition withToken (authHeader : string) : outcome Token :=
  if (authHeader =? "")%string then Unchanged
  else
    match bearerToken authHeader with
    | None => Unauthorized "Bad authentication header"
    | Some raw =>
        match ParseWithClaims raw with
        | ParsePanic => Panicked
        | ParseError err => Unauthorized ("Invalid token: " ++ err)
        | Parsed token =>
            if ExpiresAt token <? now
            then Unauthorized "Expired token: <nil>"
            else WithToken token
        end
    end.

End WithToken.

End API.

(** ** Unsigned arithmetic *)

Lemma wrap_range (z : Z) : U64.in_range (U64.wrap z).
Proof.
  unfold U64.in_range, U64.wrap, U64.modulus.
  apply Z.mod_pos_bound. reflexivity.
Qed.

Lemma wrap_small (z : Z) : U64.in_range z -> U64.wrap z = z.
Proof.
  unfold U64.in_range, U64.wrap. intros H. now apply Z.mod_small.
Qed.

Lemma add_sub_wrap (s d t : Z) :
  U64.add (U64.sub s d) t = U64.wrap (s - d + t).
Proof.
  unfold U64.add, U64.sub, U64.wrap.
  now rewrite Z.add_mod_idemp_l by (unfold U64.modulus; lia).
Qed.

Lemma wrap_add_l (a b : Z) : U64.wrap (U64.wrap a + b) = U64.wrap (a + b).
Proof.
  unfold U64.wrap. now rewrite Z.add_mod_idemp_l by (unfold U64.modulus; lia).
Qed.

Lemma wrap_add_r (a b : Z) : U64.wrap (a + U64.wrap b) = U64.wrap (a + b).
Proof.
  unfold U64.wrap. now rewrite Z.add_mod_idemp_r by (unfold U64.modulus; lia).
Qed.

Lemma wrap_mul_l (a b : Z) : U64.wrap (U64.wrap a * b) = U64.wrap (a * b).
Proof.
  unfold U64.wrap. now rewrite Z.mul_mod_idemp_l by (unfold U64.modulus; lia).
Qed.

(** Accumulating with [+=] computes the integer sum modulo [2 ^ 64]. *)
Lemma fold_add_wrap (l : list Z) (a : Z) :
  U64.wrap (fold_left U64.add l a) = U64.wrap (a + fold_right Z.add 0 l).
Proof.
  revert a. induction l as [|x l IH]; intros a; simpl.
  - now rewrite Z.add_0_r.
  - rewrite IH. unfold U64.add. rewrite wrap_add_l. f_equal. lia.
Qed.

Lemma fold_add_range (l : list Z) (a : Z) :
  U64.in_range a -> U64.in_range (fold_left U64.add l a).
Proof.
  revert a. induction l as [|x l IH]; intros a Ha; simpl; auto.
  apply IH. apply wrap_range.
Qed.

Lemma sum64_wrap (l : list Z) : sum64 l = U64.wrap (fold_right Z.add 0 l).
Proof.
  unfold sum64. rewrite <- (wrap_small (fold_left U64.add l 0)).
  - now rewrite fold_add_wrap.
  - apply fold_add_range. unfold U64.in_range, U64.modulus. lia.
Qed.

(** ** The conversion to [uint64] *)

Section Properties.

Variable conv : float64 -> Z.

Lemma to_uint64_range (f : float64) : U64.in_range (to_uint64 conv f).
Proof.
  unfold to_uint64.
  destruct (truncate f) as [z|]; [|apply wrap_range].
  destruct (0 <=? z) eqn:H0; simpl; [|apply wrap_range].
  destruct (z <? U64.modulus) eqn:H1; [|apply wrap_range].
  apply Z.leb_le in H0. apply Z.ltb_lt in H1. split; assumption.
Qed.

Lemma rint_range (x : float64) : U64.in_range (rint conv x).
Proof. apply to_uint64_range. Qed.

(** ** The loop over the tax amounts *)

Lemma applyTax_fields (incl : bool) (ip : ItemPrice) (a : taxAmount) :
  Quantity (applyTax conv incl ip a) = Quantity ip /\
  Discount (applyTax conv incl ip a) = Discount ip /\
  Total (applyTax conv incl ip a) = Total ip /\
  Taxes (applyTax conv incl ip a) = U64.add (Taxes ip) (taxOf conv incl a) /\
  Subtotal (applyTax conv incl ip a) =
    if incl then U64.add (Subtotal ip) (backOut conv (price a) (percentage a))
    else Subtotal ip.
Proof. unfold applyTax, taxOf. destruct incl; simpl; auto. Qed.

Lemma fold_applyTax (incl : bool) (amounts : list taxAmount) (ip : ItemPrice) :
  let r := fold_left (applyTax conv incl) amounts ip in
  Quantity r = Quantity ip /\
  Discount r = Discount ip /\
  Total r = Total ip /\
  Taxes r = fold_left U64.add (map (taxOf conv incl) amounts) (Taxes ip) /\
  Subtotal r =
    if incl
    then fold_left U64.add
           (map (fun a => backOut conv (price a) (percentage a)) amounts)
           (Subtotal ip)
    else Subtotal ip.
Proof.
  revert ip. induction amounts as [|a amounts IH]; intros ip; simpl.
  - destruct incl; auto.
  - destruct (applyTax_fields incl ip a) as (Hq & Hd & Ht & Hx & Hs).
    destruct (IH (applyTax conv incl ip a)) as (Iq & Id & It & Ix & Is).
    rewrite Iq, Id, It, Ix, Is, Hq, Hd, Ht, Hx, Hs.
    destruct incl; auto.
Qed.

Lemma applyTaxes_fields (incl : bool) (amounts : list taxAmount) (ip : ItemPrice) :
  Taxes ip = 0 ->
  let r := applyTaxes conv incl ip amounts in
  Quantity r = Quantity ip /\
  Discount r = Discount ip /\
  Total r = Total ip /\
  Taxes r = sum64 (map (taxOf conv incl) amounts) /\
  Subtotal r =
    match amounts with
    | [] => Subtotal ip
    | _ :: _ =>
        if incl
        then sum64
               (map (fun a => backOut conv (price a) (percentage a)) amounts)
        else Subtotal ip
    end.
Proof.
  intros H0. unfold applyTaxes.
  destruct amounts as [|a amounts].
  - simpl. unfold sum64. simpl. auto.
  - set (ip0 := if incl then _ else _).
    destruct (fold_applyTax incl (a :: amounts) ip0) as (Iq & Id & It & Ix & Is).
    cbv zeta. rewrite Iq, Id, It, Ix, Is.
    unfold sum64, ip0. destruct incl; simpl; rewrite ?H0; auto.
Qed.

(** ** One item *)

Lemma applyCoupon_fields (incl : bool) (coupon : option Coupon) (item : Item)
    (ip : ItemPrice) :
  Discount ip = 0 ->
  let r := applyCoupon conv incl coupon item ip in
  Quantity r = Quantity ip /\
  Subtotal r = Subtotal ip /\
  Taxes r = Taxes ip /\
  Discount r =
    match coupon with
    | Some c =>
        if ValidForType c (ProductType item)
        then percentOf conv (discountBase incl ip) (PercentageDiscount c)
        else 0
    | None => 0
    end.
Proof.
  intros H0. unfold applyCoupon, discountBase.
  destruct coupon as [c|]; simpl; auto.
  destruct (ValidForType c (ProductType item)); simpl; auto.
Qed.

(** The fields of the result of one item, in terms of its tax amounts. *)
Lemma calculateItem_fields (settings : option Settings) (country : string)
    (coupon : option Coupon) (item : Item) :
  let incl := includesTaxes settings in
  let amounts := taxAmounts settings country item in
  let ip := calculateItem conv settings country coupon item in
  Quantity ip = GetQuantity item /\
  Subtotal ip =
    match amounts with
    | [] => PriceInLowestUnit item
    | _ :: _ =>
        if incl
        then sum64 (map (fun a => backOut conv (price a) (percentage a)) amounts)
        else PriceInLowestUnit item
    end /\
  Taxes ip = sum64 (map (taxOf conv incl) amounts) /\
  Discount ip =
    match coupon with
    | Some c =>
        if ValidForType c (ProductType item)
        then percentOf conv (discountBase incl ip) (PercentageDiscount c)
        else 0
    | None => 0
    end /\
  Total ip = U64.wrap (Subtotal ip - Discount ip + Taxes ip).
Proof.
  intros incl amounts ip. unfold ip, calculateItem. fold incl. fold amounts.
  set (ip0 := mkItemPrice _ _ 0 0 0).
  destruct (applyTaxes_fields incl amounts ip0 eq_refl) as (Tq & Td & _ & Tx & Ts).
  set (ip1 := applyTaxes conv incl ip0 amounts) in *.
  destruct (applyCoupon_fields incl coupon item ip1) as (Cq & Cs & Cx & Cd).
  { now rewrite Td. }
  set (ip2 := applyCoupon conv incl coupon item ip1) in *.
  unfold setTotal; simpl.
  rewrite add_sub_wrap. repeat split.
  - now rewrite Cq, Tq.
  - now rewrite Cs, Ts.
  - now rewrite Cx, Tx.
  - rewrite Cd. unfold discountBase. now rewrite Cs, Cx.
Qed.

(** ** The loop over the items *)

Lemma fold_accumulate (rs : list ItemPrice) (p : Price) :
  let r := fold_left (accumulate) rs p in
  Items r = Items p ++ rs /\
  PSubtotal r =
    fold_left U64.add (map (fun x => U64.mul (Subtotal x) (Quantity x)) rs)
      (PSubtotal p) /\
  PDiscount r =
    fold_left U64.add (map (fun x => U64.mul (Discount x) (Quantity x)) rs)
      (PDiscount p) /\
  PTaxes r =
    fold_left U64.add (map (fun x => U64.mul (Taxes x) (Quantity x)) rs)
      (PTaxes p).
Proof.
  revert p. induction rs as [|x rs IH]; intros p; simpl.
  - now rewrite app_nil_r.
  - destruct (IH (accumulate p x)) as (Ii & Is & Id & Ix).
    rewrite Ii, Is, Id, Ix. simpl. now rewrite <- app_assoc.
Qed.

Lemma fold_left_map_step {A B C : Type} (f : A -> B -> A) (g : C -> B)
    (l : list C) (a : A) :
  fold_left (fun acc c => f acc (g c)) l a = fold_left f (map g l) a.
Proof. revert a. induction l as [|c l IH]; intros a; simpl; auto. Qed.

Lemma CalculatePrice_fields (settings : option Settings)
    (country currency : string) (coupon : option Coupon) (items : list Item) :
  let rs := map (calculateItem conv settings country coupon) items in
  let p := CalculatePrice conv settings country currency coupon items in
  Items p = rs /\
  PSubtotal p = sum64 (map (fun x => U64.mul (Subtotal x) (Quantity x)) rs) /\
  PDiscount p = sum64 (map (fun x => U64.mul (Discount x) (Quantity x)) rs) /\
  PTaxes p = sum64 (map (fun x => U64.mul (Taxes x) (Quantity x)) rs) /\
  PTotal p = U64.wrap (PSubtotal p - PDiscount p + PTaxes p).
Proof.
  intros rs p. unfold p, CalculatePrice.
  rewrite (fold_left_map_step accumulate
             (calculateItem conv settings country coupon)).
  fold rs. destruct (fold_accumulate rs (mkPrice [] 0 0 0 0)) as (Hi & Hs & Hd & Hx).
  simpl. rewrite add_sub_wrap. unfold sum64. repeat split; assumption.
Qed.

(** ** The rule matcher *)

Lemma contains_In (l : list string) (x : string) :
  contains l x = true <-> In x l.
Proof.
  unfold contains. rewrite existsb_exists. split.
  - intros (y & Hy & E). apply String.eqb_eq in E. now subst.
  - intros H. exists x. split; [assumption | apply String.eqb_refl].
Qed.

Lemma filter_spec (l : list string) (x : string) :
  match l with [] => true | _ :: _ => contains l x end = true <->
  l = [] \/ In x l.
Proof.
  destruct l as [|y l].
  - split; auto.
  - rewrite contains_In. split; [auto|].
    intros [H | H]; [discriminate | assumption].
Qed.

Lemma AppliesTo_spec (t : Tax) (country productType : string) :
  AppliesTo t country productType = true <-> ruleMatches country productType t.
Proof.
  unfold AppliesTo, ruleMatches.
  rewrite <- (filter_spec (ProductTypes t)), <- (filter_spec (Countries t)).
  destruct (match ProductTypes t with [] => true | _ :: _ => _ end); simpl.
  - destruct (Countries t); simpl; intuition.
  - intuition discriminate.
Qed.

Lemma firstApplicable_spec (taxes : list Tax) (country productType : string) :
  match firstApplicable taxes country productType with
  | Some t =>
      exists before after,
        taxes = before ++ t :: after /\
        ruleMatches country productType t /\
        Forall (fun t' => ~ ruleMatches country productType t') before
  | None => Forall (fun t' => ~ ruleMatches country productType t') taxes
  end.
Proof.
  induction taxes as [|t taxes IH]; simpl.
  - constructor.
  - destruct (AppliesTo t country productType) eqn:E.
    + exists [], taxes. split; [reflexivity|]. split; [|constructor].
      now apply AppliesTo_spec.
    + assert (N : ~ ruleMatches country productType t).
      { intros H. apply AppliesTo_spec in H. congruence. }
      destruct (firstApplicable taxes country productType) as [t'|].
      * destruct IH as (before & after & -> & Hm & Hb).
        exists (t :: before), after.
        split; [reflexivity|]. split; [assumption|]. now constructor.
      * constructor; assumption.
Qed.

End Properties.

(** ** binary64: digits, shifts and exact normalisation *)

Lemma digits2_log2 (p : positive) :
  Zpos (digits2_pos p) = Z.log2 (Zpos p) + 1.
Proof.
  induction p as [p IH|p IH|]; simpl digits2_pos.
  - rewrite Pos2Z.inj_succ, IH.
    change (Zpos p~1) with (2 * Zpos p + 1).
    rewrite Z.log2_succ_double by lia. lia.
  - rewrite Pos2Z.inj_succ, IH.
    change (Zpos p~0) with (2 * Zpos p).
    rewrite Z.log2_double by lia. lia.
  - reflexivity.
Qed.

Lemma digits2_bounds (p : positive) :
  2 ^ (Zpos (digits2_pos p) - 1) <= Zpos p < 2 ^ Zpos (digits2_pos p).
Proof.
  rewrite digits2_log2.
  replace (Z.log2 (Zpos p) + 1 - 1) with (Z.log2 (Zpos p)) by lia.
  replace (Z.log2 (Zpos p) + 1) with (Z.succ (Z.log2 (Zpos p))) by lia.
  apply Z.log2_spec. lia.
Qed.

(** The number of digits is determined by any power-of-two bracket. *)
Lemma digits2_unique (p : positive) (d : Z) :
  2 ^ (d - 1) <= Zpos p < 2 ^ d -> Zpos (digits2_pos p) = d.
Proof.
  intros H. rewrite digits2_log2.
  assert (0 < d).
  { destruct (Z.ltb_spec 0 d); auto. rewrite (Z.pow_neg_r 2 (d-1)) in H by lia.
    assert (2 ^ d <= 1); [|lia].
    destruct (Z.eq_dec d 0) as [->|]; [simpl; lia|]. rewrite Z.pow_neg_r; lia. }
  rewrite (Z.log2_unique (Zpos p) (d - 1)); lia || (replace (Z.succ (d-1)) with d by lia; lia).
Qed.

Lemma iter_xO (p d : positive) : Zpos (Pos.iter xO p d) = Zpos p * 2 ^ Zpos d.
Proof.
  induction d as [|d IH] using Pos.peano_ind.
  - simpl. lia.
  - rewrite Pos.iter_succ, Pos2Z.inj_xO, IH, Pos2Z.inj_succ, Z.pow_succ_r; lia.
Qed.

Lemma iter_pos_nat {A} (f : A -> A) (n : positive) (x : A) :
  iter_pos f n x = Nat.iter (Pos.to_nat n) f x.
Proof.
  revert x. induction n as [n IH|n IH|]; intros x; simpl iter_pos.
  - rewrite !IH, Pos2Nat.inj_xI. rewrite <- Nat.iter_add.
    replace (S (2 * Pos.to_nat n)) with (Pos.to_nat n + Pos.to_nat n + 1)%nat by lia.
    rewrite <- (Nat.iter_add _ 1). simpl. now rewrite Nat.iter_add.
  - rewrite !IH, Pos2Nat.inj_xO. rewrite <- Nat.iter_add. f_equal. lia.
  - reflexivity.
Qed.

(** Shifting an exact record right by one when the low bit is clear. *)
Lemma shr_1_exact (m : Z) :
  0 <= m ->
  shr_1 (Build_shr_record (2 * m) false false) = Build_shr_record m false false.
Proof. intros _. destruct m as [|p|p]; reflexivity. Qed.

Lemma iter_shr_1_exact (k : nat) (m : Z) :
  0 <= m ->
  Nat.iter k shr_1 (Build_shr_record (m * 2 ^ Z.of_nat k) false false) =
  Build_shr_record m false false.
Proof.
  intros Hm. revert m Hm. induction k as [|k IH]; intros m Hm.
  - simpl. now rewrite Z.mul_1_r.
  - rewrite Nat.iter_succ_r.
    replace (m * 2 ^ Z.of_nat (S k)) with (2 * (m * 2 ^ Z.of_nat k))
      by (rewrite Nat2Z.inj_succ, Z.pow_succ_r; lia).
    rewrite shr_1_exact by (apply Z.mul_nonneg_nonneg; [lia | apply Z.pow_nonneg; lia]).
    now apply IH.
Qed.

Lemma shr_exact (m e k : Z) :
  0 <= m -> 0 <= k ->
  shr (Build_shr_record (m * 2 ^ k) false false) e k =
  (Build_shr_record m false false, e + k).
Proof.
  intros Hm Hk. destruct k as [|k|k]; try lia.
  - simpl. now rewrite Z.mul_1_r, Z.add_0_r.
  - unfold shr. rewrite iter_pos_nat.
    rewrite <- (positive_nat_Z k) at 1.
    now rewrite iter_shr_1_exact.
Qed.


Lemma fexp_eq (e : Z) : fexp prec emax e = fexp64 e.
Proof. reflexivity. Qed.

(** Rounding an exact mantissa whose low bits are clear: the canonical
    representation of the same number. *)
Lemma binary_round_aux_exact (s : bool) (m' : positive) (e k : Z) :
  0 <= k ->
  fexp64 (Zpos (digits2_pos m') + (e + k)) = e + k ->
  e + k <= 971 ->
  binary_round_aux prec emax s (Zpos m' * 2 ^ k) e loc_Exact =
  S754_finite s m' (e + k).
Proof.
  intros Hk Hc Hmax.
  assert (Hpos : 0 < 2 ^ k) by (apply Z.pow_pos_nonneg; lia).
  destruct (Zpos m' * 2 ^ k) as [|mz|mz] eqn:Emz; try lia.
  assert (Hd : Zpos (digits2_pos mz) = Zpos (digits2_pos m') + k).
  { apply digits2_unique. rewrite <- Emz.
    pose proof (digits2_bounds m') as B.
    replace (Zpos (digits2_pos m') + k - 1) with (Zpos (digits2_pos m') - 1 + k) by lia.
    rewrite !Z.pow_add_r by lia. nia. }
  unfold binary_round_aux, shr_fexp.
  rewrite fexp_eq. simpl Zdigits2. rewrite Hd.
  replace (Zpos (digits2_pos m') + k + e) with (Zpos (digits2_pos m') + (e + k)) by lia.
  rewrite Hc. replace (e + k - e) with k by lia.
  simpl shr_record_of_loc. rewrite <- Emz. rewrite shr_exact by lia.
  simpl shr_m. simpl loc_of_shr_record. simpl round_nearest_even.
  rewrite fexp_eq. simpl Zdigits2. rewrite Hc. rewrite Z.sub_diag. simpl shr.
  simpl shr_m. unfold emax, prec. simpl (1024 - 53).
  destruct (Z.leb_spec (e + k) 971); [reflexivity | lia].
Qed.

Lemma binary_round_aux_canonical (s : bool) (m : positive) (e : Z) :
  fexp64 (Zpos (digits2_pos m) + e) = e -> e <= 971 ->
  binary_round_aux prec emax s (Zpos m) e loc_Exact = S754_finite s m e.
Proof.
  intros Hc Hmax.
  pose proof (binary_round_aux_exact s m e 0) as H.
  rewrite Z.add_0_r in H. change (2 ^ 0) with 1 in H. rewrite Z.mul_1_r in H.
  apply H; [lia | assumption | assumption].
Qed.

Lemma digits2_shift (m m' : positive) (k : Z) :
  0 <= k -> Zpos m = Zpos m' * 2 ^ k ->
  Zpos (digits2_pos m) = Zpos (digits2_pos m') + k.
Proof.
  intros Hk E. apply digits2_unique. rewrite E.
  pose proof (digits2_bounds m') as B.
  assert (Hpos : 0 < 2 ^ k) by (apply Z.pow_pos_nonneg; lia).
  replace (Zpos (digits2_pos m') + k - 1) with (Zpos (digits2_pos m') - 1 + k) by lia.
  rewrite !Z.pow_add_r by lia. nia.
Qed.

(** Normalising a number that needs more mantissa bits: the mantissa is
    shifted left. *)
Lemma binary_round_shl (s : bool) (mx m' : positive) (ex e' : Z) :
  e' = fexp64 (Zpos (digits2_pos mx) + ex) ->
  e' <= ex -> e' <= 971 ->
  Zpos m' = Zpos mx * 2 ^ (ex - e') ->
  binary_round prec emax s mx ex = S754_finite s m' e'.
Proof.
  intros He Hle Hmax Hm.
  assert (He0 : forall a, a = Zpos (digits2_pos mx) + ex -> fexp64 a = e')
    by (intros a ->; now symmetry).
  pose proof (digits2_shift m' mx (ex - e') ltac:(lia) Hm) as Hd.
  unfold binary_round. rewrite fexp_eq, <- He. unfold shl_align.
  destruct (e' - ex) as [|d|d] eqn:Ed; try lia.
  - assert (ex = e') by lia. subst ex.
    rewrite Z.sub_diag, Z.mul_1_r in Hm. injection Hm as ->.
    apply binary_round_aux_canonical; [|lia]. apply He0. lia.
  - assert (Pos.iter xO mx d = m') as ->.
    { apply Pos2Z.inj. rewrite iter_xO, Hm. f_equal. f_equal. lia. }
    apply binary_round_aux_canonical; [|lia]. apply He0. lia.
Qed.

(** Normalising a number whose low mantissa bits are clear: the mantissa is
    shifted right and nothing is lost. *)
Lemma binary_round_shr (s : bool) (mx m' : positive) (ex e' : Z) :
  e' = fexp64 (Zpos (digits2_pos mx) + ex) ->
  ex <= e' -> e' <= 971 ->
  Zpos mx = Zpos m' * 2 ^ (e' - ex) ->
  binary_round prec emax s mx ex = S754_finite s m' e'.
Proof.
  intros He Hle Hmax Hm. 
  assert (He0 : forall a, a = Zpos (digits2_pos mx) + ex -> fexp64 a = e')
    by (intros a ->; now symmetry).
  pose proof (digits2_shift mx m' (e' - ex) ltac:(lia) Hm) as Hd.
  unfold binary_round. rewrite fexp_eq, <- He. unfold shl_align.
  destruct (e' - ex) as [|d|d] eqn:Ed; try lia.
  - assert (ex = e') by lia. subst ex.
    change (2 ^ 0) with 1 in Hm. rewrite Z.mul_1_r in Hm. injection Hm as ->.
    apply binary_round_aux_canonical; [|lia]. apply He0. lia.
  - rewrite Hm, <- Ed.
    replace (S754_finite s m' e') with (S754_finite s m' (ex + (e' - ex)))
      by (f_equal; lia).
    apply binary_round_aux_exact; try lia.
    replace (ex + (e' - ex)) with e' by lia. apply He0. lia.
Qed.

(** ** Integers as floats *)

Lemma cond_Zopp_false (z : Z) : cond_Zopp false z = z.
Proof. reflexivity. Qed.


Lemma digits2_le (p : positive) (d : Z) :
  Zpos p < 2 ^ d -> Zpos (digits2_pos p) <= d.
Proof.
  intros H. pose proof (digits2_bounds p) as [B _].
  destruct (Z.leb_spec (Zpos (digits2_pos p)) d) as [|L]; [assumption|].
  assert (2 ^ d <= 2 ^ (Zpos (digits2_pos p) - 1)); [|lia].
  apply Z.pow_le_mono_r; lia.
Qed.


Lemma int_mantissa_eq (q : positive) :
  Zpos q < 2 ^ 53 ->
  Zpos (int_mantissa q) = Zpos q * 2 ^ (53 - Zpos (digits2_pos q)).
Proof.
  intros H. unfold int_mantissa. apply Z2Pos.id.
  pose proof (digits2_le q 53 H).
  apply Z.mul_pos_pos; [lia | apply Z.pow_pos_nonneg; lia].
Qed.

Lemma of_int_pos (q : positive) :
  Zpos q < 2 ^ 53 ->
  of_int (Zpos q) =
  S754_finite false (int_mantissa q) (Zpos (digits2_pos q) - 53).
Proof.
  intros H. pose proof (digits2_le q 53 H) as Hd.
  unfold of_int, binary_normalize.
  apply binary_round_shl; unfold fexp64; try lia.
  rewrite int_mantissa_eq by assumption. f_equal. f_equal. lia.
Qed.

Lemma truncate_int (q : positive) :
  Zpos q < 2 ^ 53 ->
  truncate (S754_finite false (int_mantissa q) (Zpos (digits2_pos q) - 53)) =
  Some (Zpos q).
Proof.
  intros H. pose proof (digits2_le q 53 H) as Hd.
  unfold truncate. rewrite cond_Zopp_false. rewrite int_mantissa_eq by assumption.
  destruct (Z.leb_spec 0 (Zpos (digits2_pos q) - 53)).
  - replace (Zpos (digits2_pos q) - 53) with 0 by lia.
    replace (53 - Zpos (digits2_pos q)) with 0 by lia.
    change (2 ^ 0) with 1. f_equal. lia.
  - f_equal. replace (- (Zpos (digits2_pos q) - 53)) with (53 - Zpos (digits2_pos q)) by lia.
    apply Z.div_mul. apply Z.pow_nonzero; lia.
Qed.

Lemma add_one_int (q : positive) :
  Zpos q < 2 ^ 52 ->
  add (of_int (Zpos q)) one = of_int (Zpos q + 1).
Proof.
  intros H.
  assert (H53 : Zpos q < 2 ^ 53) by (change (2 ^ 53) with (2 * 2 ^ 52); lia).
  pose proof (digits2_le q 52 H) as Hd.
  pose proof (digits2_bounds q) as Bq.
  rewrite of_int_pos by assumption.
  change (Zpos q + 1) with (Zpos (q + 1)).
  assert (H53' : Zpos (q + 1) < 2 ^ 53) by (change (2 ^ 53) with (2 * 2 ^ 52); lia).
  rewrite of_int_pos by assumption.
  pose proof (digits2_le (q + 1) 53 H53') as Hd'.
  unfold add, one, SFadd.
  assert (Emin : Z.min (Zpos (digits2_pos q) - 53) (-52) = -52) by lia.
  rewrite Emin.
  assert (E1 : Zpos (fst (shl_align (int_mantissa q) (Zpos (digits2_pos q) - 53) (-52)))
               = Zpos q * 2 ^ 52).
  { unfold shl_align.
    destruct (-52 - (Zpos (digits2_pos q) - 53)) as [|d|d] eqn:Ed; try lia.
    - simpl fst. rewrite int_mantissa_eq by assumption.
      replace (53 - Zpos (digits2_pos q)) with 52 by lia. reflexivity.
    - simpl fst. rewrite iter_xO, int_mantissa_eq by assumption.
      rewrite <- Z.mul_assoc, <- Z.pow_add_r by lia.
      f_equal. f_equal. lia. }
  rewrite E1. simpl (shl_align 4503599627370496 (-52) (-52)). simpl fst.
  rewrite !cond_Zopp_false.
  replace (Zpos q * 2 ^ 52 + 4503599627370496) with (Zpos (q + 1) * 2 ^ 52)
    by (rewrite Pos2Z.inj_add; change (2 ^ 52) with 4503599627370496; lia).
  destruct (Zpos (q + 1) * 2 ^ 52) as [|P|P] eqn:EP; try lia.
  unfold binary_normalize.
  assert (HdP : Zpos (digits2_pos P) = Zpos (digits2_pos (q + 1)) + 52).
  { apply (digits2_shift P (q + 1) 52); lia. }
  apply binary_round_shr; rewrite ?HdP; unfold fexp64; try lia.
  rewrite <- EP, int_mantissa_eq by assumption.
  rewrite <- Z.mul_assoc, <- Z.pow_add_r by lia.
  f_equal. f_equal. lia.
Qed.

(** ** The fractional part *)

Lemma compare_cont_Eq (a b : positive) :
  Pos.compare_cont Eq a b = (Zpos a ?= Zpos b).
Proof. reflexivity. Qed.




Lemma frac_float (r : positive) (e : Z) :
  -1074 <= e <= 0 -> Zpos r < 2 ^ 53 ->
  binary_normalize prec emax (Zpos r) e false =
  S754_finite false (frac_mantissa r e) (frac_exponent r e).
Proof.
  intros He Hr. pose proof (digits2_le r 53 Hr) as Hd.
  unfold binary_normalize, frac_exponent, frac_mantissa.
  apply binary_round_shl; unfold fexp64; try lia.
  apply Z2Pos.id. apply Z.mul_pos_pos; [lia | apply Z.pow_pos_nonneg; lia].
Qed.

Lemma frac_compare_half (r : positive) (e : Z) :
  -1074 <= e < 0 -> Zpos r < 2 ^ 53 -> Zpos r < 2 ^ (- e) ->
  SFcompare (S754_finite false (frac_mantissa r e) (frac_exponent r e)) half =
  Some (2 * Zpos r ?= 2 ^ (- e)).
Proof.
  intros He Hr Hlt.
  pose proof (digits2_le r 53 Hr) as Hd.
  pose proof (digits2_le r (- e) Hlt) as Hde.
  pose proof (digits2_bounds r) as [Blo Bhi].
  unfold half, SFcompare. f_equal.
  assert (Em : Zpos (frac_mantissa r e) = Zpos r * 2 ^ (e - frac_exponent r e)).
  { unfold frac_mantissa. apply Z2Pos.id.
    apply Z.mul_pos_pos; [lia | apply Z.pow_pos_nonneg].
    - lia.
    - unfold frac_exponent, fexp64. lia. }
  destruct (Z.compare_spec (frac_exponent r e) (-53)) as [E|E|E].
  - (* the fraction lies in [1/4, 1/2) or [1/2, 1) *)
    assert (Hdr : Zpos (digits2_pos r) = - e)
      by (unfold frac_exponent, fexp64 in E; lia).
    rewrite compare_cont_Eq, Em, E.
    replace (e - -53) with (e + 53) by lia.
    change (Zpos 4503599627370496) with (2 ^ 52).
    replace (2 ^ 52) with (2 ^ (- e - 1) * 2 ^ (e + 53))
      by (rewrite <- Z.pow_add_r by lia; f_equal; lia).
    rewrite <- Zmult_compare_compat_r
      by (apply Z.lt_gt, Z.pow_pos_nonneg; lia).
    replace (2 ^ (- e)) with (2 * 2 ^ (- e - 1))
      by (rewrite <- Z.pow_succ_r by lia; f_equal; lia).
    rewrite <- Zmult_compare_compat_l by lia. reflexivity.
  - (* the fraction is below 1/4 *)
    symmetry. apply Z.compare_lt_iff.
    assert (Hdr : Zpos (digits2_pos r) <= - e - 1)
      by (unfold frac_exponent, fexp64 in E; lia).
    assert (2 ^ Zpos (digits2_pos r) <= 2 ^ (- e - 1))
      by (apply Z.pow_le_mono_r; lia).
    replace (2 ^ (- e)) with (2 * 2 ^ (- e - 1))
      by (rewrite <- Z.pow_succ_r by lia; f_equal; lia).
    lia.
  - exfalso. unfold frac_exponent, fexp64 in E. lia.
Qed.

Lemma SFcompare_swap (m1 m2 : positive) (e1 e2 : Z) :
  SFcompare (S754_finite false m2 e2) (S754_finite false m1 e1) =
  option_map CompOpp (SFcompare (S754_finite false m1 e1) (S754_finite false m2 e2)).
Proof.
  unfold SFcompare, option_map. f_equal.
  rewrite (Z.compare_antisym e2 e1).
  destruct (e2 ?= e1); simpl; try reflexivity.
  rewrite !compare_cont_Eq. apply Z.compare_antisym.
Qed.

Lemma frac_tests (r : positive) (e : Z) :
  -1074 <= e < 0 -> Zpos r < 2 ^ 53 -> Zpos r < 2 ^ (- e) ->
  let frac := binary_normalize prec emax (Zpos r) e false in
  ltb half frac = (2 ^ (- e) <? 2 * Zpos r) /\
  eqb frac half = (2 * Zpos r =? 2 ^ (- e)).
Proof.
  intros He Hr Hlt frac. unfold frac. rewrite frac_float by lia.
  unfold ltb, eqb, SFltb, SFeqb.
  unfold half at 1. rewrite SFcompare_swap. fold half.
  rewrite frac_compare_half by assumption.
  rewrite Z.ltb_compare, Z.eqb_compare, (Z.compare_antisym (2 * Zpos r)).
  generalize (2 * Zpos r ?= 2 ^ (- e)). intros c. unfold option_map.
  destruct c; split; reflexivity.
Qed.



Section Rint.
Variable conv : float64 -> Z.

Lemma to_uint64_of_int (q : Z) :
  0 <= q < 2 ^ 53 -> to_uint64 conv (of_int q) = q.
Proof.
  intros H. destruct q as [|q|q]; try lia.
  - reflexivity.
  - rewrite of_int_pos by lia. unfold to_uint64.
    rewrite truncate_int by lia.
    destruct (Z.leb_spec 0 (Zpos q)); try lia.
    destruct (Z.ltb_spec (Zpos q) U64.modulus); try reflexivity.
    unfold U64.modulus in *. lia.
Qed.

Lemma add_one (q : Z) :
  0 <= q < 2 ^ 52 -> add (of_int q) one = of_int (q + 1).
Proof.
  intros H. destruct q as [|q|q]; try lia.
  - reflexivity.
  - apply add_one_int. lia.
Qed.

Lemma odd_mod2 (z : Z) : negb (z mod 2 =? 0) = Z.odd z.
Proof.
  rewrite Zmod_odd. destruct (Z.odd z); reflexivity.
Qed.

Lemma bounded_facts (m : positive) (e : Z) :
  bounded prec emax m e = true ->
  Zpos m < 2 ^ 53 /\ -1074 <= e <= 971.
Proof.
  unfold bounded, canonical_mantissa. rewrite fexp_eq.
  intros H. apply andb_true_iff in H. destruct H as [Hc Hb].
  apply Z.eqb_eq in Hc. apply Z.leb_le in Hb.
  unfold emax, prec in Hb. unfold fexp64 in Hc.
  pose proof (digits2_bounds m) as [_ Bhi].
  assert (Zpos (digits2_pos m) <= 53) by lia.
  assert (2 ^ Zpos (digits2_pos m) <= 2 ^ 53) by (apply Z.pow_le_mono_r; lia).
  lia.
Qed.

Theorem rint_positive (m : positive) (e : Z) :
  let x := S754_finite false m e in
  bounded prec emax m e = true ->
  numerator x < 2 ^ 64 * denominator x ->
  rint conv x = round_half_even (numerator x) (denominator x).
Proof.
  intros x Hb Hr. destruct (bounded_facts m e Hb) as [Hm He].
  unfold rint, rint_float, x, Modf. unfold x, numerator, denominator in Hr.
  rewrite cond_Zopp_false in Hr. unfold numerator, denominator.
  rewrite !cond_Zopp_false.
  change (ltb zero (S754_finite false m e)) with true. cbv iota.
  destruct (Z.leb_spec 0 e) as [Hpos|Hneg].
  - (* an integer *)
    change (ltb half (S754_zero false)) with false.
    change (eqb (S754_zero false) half) with false.
    cbv [orb andb].
    unfold to_uint64, truncate. rewrite cond_Zopp_false.
    destruct (Z.leb_spec 0 e); try lia.
    assert (0 < 2 ^ e) by (apply Z.pow_pos_nonneg; lia).
    destruct (Z.leb_spec 0 (Zpos m * 2 ^ e)); try lia.
    destruct (Z.ltb_spec (Zpos m * 2 ^ e) U64.modulus);
      [|unfold U64.modulus in *; lia].
    cbv [andb]. unfold round_half_even.
    rewrite Z.div_1_r, Z.mod_1_r. reflexivity.
  - (* an integral part and a fraction *)
    assert (Hd : 2 <= 2 ^ (- e)).
    { change 2 with (2 ^ 1) at 1. apply Z.pow_le_mono_r; lia. }
    pose proof (Z.div_mod (Zpos m) (2 ^ (- e)) ltac:(lia)) as Hdm.
    pose proof (Z.mod_pos_bound (Zpos m) (2 ^ (- e)) ltac:(lia)) as Hmod.
    assert (Hq : 0 <= Zpos m / 2 ^ (- e) < 2 ^ 52).
    { split; [apply Z.div_pos; lia|].
      apply Z.div_lt_upper_bound; [lia|].
      change (2 ^ 53) with (2 * 2 ^ 52) in Hm. nia. }
    remember (Zpos m / 2 ^ (- e)) as q eqn:Eq.
    remember (Zpos m mod 2 ^ (- e)) as r eqn:Er.
    fold (of_int q).
    assert (Hq53 : 0 <= q < 2 ^ 53)
      by (change (2 ^ 53) with (2 * 2 ^ 52); lia).
    rewrite (to_uint64_of_int q Hq53), odd_mod2.
    unfold round_half_even. rewrite <- Eq, <- Er.
    assert (Hr53 : r < 2 ^ 53) by nia.
    clear Eq Er Hdm.
    destruct r as [|r|r]; try lia.
    + change (ltb half (binary_normalize prec emax 0 e false)) with false.
      change (eqb (binary_normalize prec emax 0 e false) half) with false.
      cbv [orb andb].
      destruct (Z.ltb_spec (2 ^ (- e)) (2 * 0)); try lia.
      destruct (Z.eqb_spec (2 * 0) (2 ^ (- e))); try lia.
      cbv [orb andb]. apply to_uint64_of_int. assumption.
    + destruct (frac_tests r e ltac:(lia) Hr53 ltac:(lia)) as [Hlt Heq].
      rewrite Hlt, Heq.
      destruct ((2 ^ (- e) <? 2 * Zpos r) || ((2 * Zpos r =? 2 ^ (- e)) && Z.odd q)).
      * rewrite add_one by assumption. apply to_uint64_of_int.
        change (2 ^ 53) with (2 * 2 ^ 52). lia.
      * apply to_uint64_of_int. assumption.
Qed.
End Rint.


Lemma binary_round_aux_finish (s : bool) (mx ex : Z) (lx : location) :
  binary_round_aux prec emax s mx ex lx =
  let '(mrs, e) := shr_fexp prec emax mx ex lx in
  finish s (round_nearest_even (shr_m mrs) (loc_of_shr_record mrs)) e.
Proof.
  unfold binary_round_aux, finish.
  destruct (shr_fexp prec emax mx ex lx) as [mrs e]. reflexivity.
Qed.

Lemma bounded_intro (m : positive) (e : Z) :
  fexp64 (Zpos (digits2_pos m) + e) = e -> e <= 971 ->
  bounded prec emax m e = true.
Proof.
  intros Hc He. unfold bounded, canonical_mantissa. rewrite fexp_eq, Hc.
  rewrite Z.eqb_refl. apply Z.leb_le. unfold emax, prec. lia.
Qed.

Lemma finish_exact (s : bool) (m' : positive) (e k : Z) :
  0 <= k ->
  fexp64 (Zpos (digits2_pos m') + (e + k)) = e + k ->
  e + k <= 971 ->
  finish s (Zpos m' * 2 ^ k) e = S754_finite s m' (e + k).
Proof.
  intros Hk Hc Hmax.
  assert (Hpos : 0 < 2 ^ k) by (apply Z.pow_pos_nonneg; lia).
  destruct (Zpos m' * 2 ^ k) as [|mz|mz] eqn:Emz; try lia.
  pose proof (digits2_shift mz m' k Hk (eq_sym Emz)) as Hd.
  unfold finish, shr_fexp.
  rewrite fexp_eq. unfold Zdigits2. rewrite Hd.
  replace (Zpos (digits2_pos m') + k + e) with (Zpos (digits2_pos m') + (e + k)) by lia.
  rewrite Hc. replace (e + k - e) with k by lia.
  unfold shr_record_of_loc. rewrite <- Emz. rewrite shr_exact by lia.
  unfold shr_m. unfold emax, prec.
  destruct (Z.leb_spec (e + k) (1024 - 53)); [reflexivity | lia].
Qed.

Lemma finish_normal (s : bool) (m : positive) (e : Z) :
  2 ^ 52 <= Zpos m <= 2 ^ 53 -> -1074 <= e <= 970 ->
  exists mF eF,
    finish s (Zpos m) e = S754_finite s mF eF /\
    bounded prec emax mF eF = true /\
    e <= eF <= e + 1 /\
    Zpos mF * 2 ^ (eF - e) = Zpos m.
Proof.
  intros Hm He.
  destruct (Z.eq_dec (Zpos m) (2 ^ 53)) as [E|NE].
  - exists 4503599627370496%positive, (e + 1).
    injection E as ->.
    assert (F : finish s (Zpos 9007199254740992) e =
                S754_finite s 4503599627370496 (e + 1)).
    { change (Zpos 9007199254740992) with (Zpos 4503599627370496 * 2 ^ 1).
      apply finish_exact; unfold fexp64; simpl digits2_pos; lia. }
    split; [exact F|]. split; [|split; [lia|]].
    + apply bounded_intro; unfold fexp64; simpl digits2_pos; lia.
    + replace (e + 1 - e) with 1 by lia. reflexivity.
  - exists m, e.
    assert (Hd : Zpos (digits2_pos m) = 53) by (apply digits2_unique; lia).
    assert (F : finish s (Zpos m) e = S754_finite s m e).
    { pose proof (finish_exact s m e 0) as H.
      rewrite Z.add_0_r in H. change (2 ^ 0) with 1 in H.
      rewrite Z.mul_1_r in H. apply H; unfold fexp64; lia. }
    split; [exact F|]. split; [|split; [lia|]].
    + apply bounded_intro; unfold fexp64; lia.
    + rewrite Z.sub_diag. change (2 ^ 0) with 1. lia.
Qed.

Lemma round_nearest_even_cases (m : Z) (l : location) :
  round_nearest_even m l = m \/ round_nearest_even m l = m + 1.
Proof.
  destruct l as [|[| |]]; simpl; auto.
  destruct (Z.even m); auto.
Qed.

Lemma loc_of_record_of_loc (m : Z) (l : location) :
  loc_of_shr_record (shr_record_of_loc m l) = l /\
  shr_m (shr_record_of_loc m l) = m.
Proof. destruct l as [|[| |]]; split; reflexivity. Qed.

Lemma shr_1_mantissa (m : positive) (r s : bool) :
  shr_m (shr_1 (Build_shr_record (Zpos m) r s)) = Zpos m / 2.
Proof.
  destruct m as [p|p|]; unfold shr_1, shr_m.
  - rewrite Pos2Z.inj_xI. apply (Z.div_unique _ _ _ 1); lia.
  - rewrite Pos2Z.inj_xO. apply (Z.div_unique _ _ _ 0); lia.
  - reflexivity.
Qed.

Lemma shr_1_even_exact (m : positive) :
  Z.even (Zpos m) = true ->
  loc_of_shr_record (shr_1 (Build_shr_record (Zpos m) false false)) = loc_Exact.
Proof. destruct m as [p|p|]; simpl; intros H; try discriminate; reflexivity. Qed.

(** The first step of [binary_round_aux] on a mantissa of 53 or 54 bits:
    the rounded mantissa and its exponent. *)
Lemma round_stage (m : positive) (e : Z) (l : location) :
  2 ^ 52 <= Zpos m < 2 ^ 54 -> -1074 <= e ->
  exists (m2 : positive) (e1 : Z),
    (let '(mrs, e1') := shr_fexp prec emax (Zpos m) e l in
     (round_nearest_even (shr_m mrs) (loc_of_shr_record mrs), e1')) =
    (Zpos m2, e1) /\
    2 ^ 52 <= Zpos m2 <= 2 ^ 53 /\
    e <= e1 <= e + 1 /\
    Zpos m - 1 <= Zpos m2 * 2 ^ (e1 - e) <= Zpos m + 2 /\
    (l = loc_Exact -> Z.even (Zpos m) = true -> Zpos m2 * 2 ^ (e1 - e) = Zpos m).
Proof.
  intros Hm He.
  destruct (Z.ltb_spec (Zpos m) (2 ^ 53)) as [H53|H54].
  - (* 53 bits: no shift *)
    assert (Hd : Zpos (digits2_pos m) = 53) by (apply digits2_unique; lia).
    unfold shr_fexp. rewrite fexp_eq. unfold Zdigits2. rewrite Hd.
    replace (fexp64 (53 + e) - e) with 0 by (unfold fexp64; lia).
    unfold shr.
    destruct (loc_of_record_of_loc (Zpos m) l) as [-> ->].
    destruct (round_nearest_even_cases (Zpos m) l) as [E|E].
    + exists m, e. rewrite E. rewrite Z.sub_diag. change (2 ^ 0) with 1.
      repeat split; try lia.
    + exists (m + 1)%positive, e. rewrite E. rewrite Z.sub_diag.
      change (2 ^ 0) with 1. rewrite Pos2Z.inj_add.
      repeat split; try lia.
      intros -> _. simpl in E. lia.
  - (* 54 bits: one shift *)
    assert (Hd : Zpos (digits2_pos m) = 54) by (apply digits2_unique; lia).
    unfold shr_fexp. rewrite fexp_eq. unfold Zdigits2. rewrite Hd.
    replace (fexp64 (54 + e) - e) with 1 by (unfold fexp64; lia).
    unfold shr, iter_pos.
    assert (Hh : 2 ^ 52 <= Zpos m / 2 < 2 ^ 53).
    { split.
      - apply Z.div_le_lower_bound; [lia|]. change (2 * 2 ^ 52) with (2 ^ 53). lia.
      - apply Z.div_lt_upper_bound; [lia|]. change (2 * 2 ^ 53) with (2 ^ 54). lia. }
    pose proof (Z.div_mod (Zpos m) 2 ltac:(lia)) as Hdm.
    pose proof (Z.mod_pos_bound (Zpos m) 2 ltac:(lia)) as Hmod.
    assert (Hsm : forall r s,
               shr_m (shr_1 (Build_shr_record (Zpos m) r s)) = Zpos m / 2)
      by apply shr_1_mantissa.
    destruct (Zpos m / 2) as [|h|h] eqn:Eh; try lia.
    assert (Hp : 2 ^ (e + 1 - e) = 2) by (replace (e + 1 - e) with 1 by lia; reflexivity).
    destruct l as [|c].
    + (* exact so far *)
      unfold shr_record_of_loc. rewrite Hsm.
      destruct (round_nearest_even_cases (Zpos h)
                  (loc_of_shr_record (shr_1 (Build_shr_record (Zpos m) false false))))
        as [E|E].
      * exists h, (e + 1). rewrite E, Hp. repeat split; try lia.
        intros _ Hev. rewrite Zmod_even, Hev in Hdm. lia.
      * exists (h + 1)%positive, (e + 1). rewrite E, Pos2Z.inj_add, Hp.
        repeat split; try lia.
        intros _ Hev. rewrite (shr_1_even_exact m Hev) in E. simpl in E. lia.
    + assert (Hrec : exists r s, shr_record_of_loc (Zpos m) (loc_Inexact c) =
                                 Build_shr_record (Zpos m) r s)
        by (destruct c; simpl; eauto).
      destruct Hrec as (r & s & ->). rewrite Hsm.
      destruct (round_nearest_even_cases (Zpos h)
                  (loc_of_shr_record (shr_1 (Build_shr_record (Zpos m) r s))))
        as [E|E].
      * exists h, (e + 1). rewrite E, Hp. repeat split; try lia. discriminate.
      * exists (h + 1)%positive, (e + 1). rewrite E, Pos2Z.inj_add, Hp.
        repeat split; try lia. discriminate.
Qed.

(** Rounding a mantissa of 53 or 54 bits: the result is a binary64 number
    next to it, and the mantissa itself when nothing has to be rounded. *)
Lemma binary_round_aux_enclosure (m : positive) (e : Z) (l : location) :
  2 ^ 52 <= Zpos m < 2 ^ 54 -> -1074 <= e <= 969 ->
  exists (mF : positive) (eF : Z),
    binary_round_aux prec emax false (Zpos m) e l = S754_finite false mF eF /\
    bounded prec emax mF eF = true /\
    e <= eF <= e + 2 /\
    Zpos m - 1 <= Zpos mF * 2 ^ (eF - e) <= Zpos m + 2 /\
    (l = loc_Exact -> Z.even (Zpos m) = true -> Zpos mF * 2 ^ (eF - e) = Zpos m).
Proof.
  intros Hm He.
  destruct (round_stage m e l Hm ltac:(lia)) as (m2 & e1 & Hst & Hm2 & He1 & Henc & Hex).
  rewrite binary_round_aux_finish.
  destruct (shr_fexp prec emax (Zpos m) e l) as [mrs e1'].
  injection Hst as -> ->.
  destruct (finish_normal false m2 e1 Hm2 ltac:(lia)) as (mF & eF & HF & Hb & HeF & Hval).
  exists mF, eF. split; [exact HF|]. split; [exact Hb|]. split; [lia|].
  assert (Hv : Zpos mF * 2 ^ (eF - e) = Zpos m2 * 2 ^ (e1 - e)).
  { replace (eF - e) with ((eF - e1) + (e1 - e)) by lia.
    rewrite Z.pow_add_r by lia. rewrite Z.mul_assoc, Hval. reflexivity. }
  rewrite Hv. split; assumption.
Qed.

(** ** Products and quotients of integers *)

Lemma int_mantissa_digits (q : positive) :
  Zpos q < 2 ^ 53 -> Zpos (digits2_pos (int_mantissa q)) = 53.
Proof.
  intros H. pose proof (digits2_le q 53 H) as Hd.
  rewrite (digits2_shift (int_mantissa q) q (53 - Zpos (digits2_pos q))).
  - lia.
  - lia.
  - now apply int_mantissa_eq.
Qed.

Lemma digits2_mul (a p : positive) :
  Zpos (digits2_pos a) + Zpos (digits2_pos p) - 1 <= Zpos (digits2_pos (a * p)).
Proof.
  pose proof (digits2_bounds a) as [Ba _].
  pose proof (digits2_bounds p) as [Bp _].
  pose proof (digits2_bounds (a * p)) as [_ Bap].
  rewrite Pos2Z.inj_mul in Bap.
  assert (H : 2 ^ (Zpos (digits2_pos a) - 1 + (Zpos (digits2_pos p) - 1))
              < 2 ^ Zpos (digits2_pos (a * p))).
  { rewrite Z.pow_add_r by lia.
    assert (0 < 2 ^ (Zpos (digits2_pos a) - 1)) by (apply Z.pow_pos_nonneg; lia).
    assert (0 < 2 ^ (Zpos (digits2_pos p) - 1)) by (apply Z.pow_pos_nonneg; lia).
    nia. }
  apply Z.pow_lt_mono_r_iff in H; lia.
Qed.

(** The product of two integers is exact as long as it fits 53 bits. *)
Lemma mul_int (a p : positive) :
  Zpos a * Zpos p < 2 ^ 53 ->
  mul (of_int (Zpos a)) (of_int (Zpos p)) = of_int (Zpos a * Zpos p).
Proof.
  intros H.
  assert (Ha : Zpos a < 2 ^ 53) by nia.
  assert (Hp : Zpos p < 2 ^ 53) by nia.
  change (Zpos a * Zpos p) with (Zpos (a * p)) in *.
  rewrite !of_int_pos by assumption.
  pose proof (digits2_le a 53 Ha) as Hda.
  pose proof (digits2_le p 53 Hp) as Hdp.
  pose proof (digits2_le (a * p) 53 H) as Hdap.
  pose proof (digits2_mul a p) as Hmul.
  unfold mul, SFmul. change (xorb false false) with false.
  set (da := Zpos (digits2_pos a)) in *.
  set (dp := Zpos (digits2_pos p)) in *.
  set (dap := Zpos (digits2_pos (a * p))) in *.
  replace (dap - 53) with ((da - 53 + (dp - 53)) + (dap + 53 - da - dp)) by lia.
  replace (Zpos (int_mantissa a * int_mantissa p))
    with (Zpos (int_mantissa (a * p)) * 2 ^ (dap + 53 - da - dp)).
  - apply binary_round_aux_exact; try lia.
    rewrite int_mantissa_digits by assumption. unfold fexp64. lia.
  - rewrite Pos2Z.inj_mul, !int_mantissa_eq by assumption.
    fold da dp dap. rewrite Pos2Z.inj_mul.
    rewrite <- !Z.mul_assoc. f_equal.
    rewrite (Z.mul_comm (2 ^ (53 - da))), <- !Z.mul_assoc. f_equal.
    rewrite <- !Z.pow_add_r by lia. f_equal. lia.
Qed.

Lemma round_half_even_split (k f d : Z) :
  0 <= f < d ->
  round_half_even (k * d + f) d =
  if (d <? 2 * f) || ((2 * f =? d) && Z.odd k) then k + 1 else k.
Proof.
  intros H. unfold round_half_even.
  assert (Hq : (k * d + f) / d = k).
  { symmetry. apply (Z.div_unique _ _ _ f); lia. }
  assert (Hr : (k * d + f) mod d = f).
  { symmetry. apply (Z.mod_unique _ _ k); lia. }
  now rewrite Hq, Hr.
Qed.

Lemma round_half_even_scale (n d c : Z) :
  0 < d -> 0 < c ->
  round_half_even (n * c) (d * c) = round_half_even n d.
Proof.
  intros Hd Hc.
  pose proof (Z.div_mod n d ltac:(lia)) as Hdm.
  pose proof (Z.mod_pos_bound n d Hd) as Hm.
  replace (n * c) with ((n / d) * (d * c) + (n mod d) * c) by nia.
  assert (Hb : 0 <= n mod d * c < d * c).
  { split; [apply Z.mul_nonneg_nonneg; lia|].
    apply Z.mul_lt_mono_pos_r; lia. }
  rewrite (round_half_even_split (n / d) (n mod d * c) (d * c) Hb).
  unfold round_half_even.
  assert (E1 : (d * c <? 2 * (n mod d * c)) = (d <? 2 * (n mod d))).
  { destruct (Z.ltb_spec (d * c) (2 * (n mod d * c)));
      destruct (Z.ltb_spec d (2 * (n mod d))); try reflexivity; nia. }
  assert (E2 : (2 * (n mod d * c) =? d * c) = (2 * (n mod d) =? d)).
  { destruct (Z.eqb_spec (2 * (n mod d * c)) (d * c));
      destruct (Z.eqb_spec (2 * (n mod d)) d); try reflexivity; nia. }
  now rewrite E1, E2.
Qed.

(** A number within a few units of [N * U / 100], in units of [1 / U], rounds
    like [N / 100] when the units are fine enough. *)
Lemma round_half_even_near (N U F : Z) :
  0 <= N -> 200 < U -> Z.even U = true ->
  N * U / 100 - 1 <= F <= N * U / 100 + 2 ->
  ((N * U) mod 100 = 0 -> F = N * U / 100) ->
  round_half_even F U = round_half_even N 100.
Proof.
  intros HN HU Hev Henc Hex.
  pose proof (Z.div_mod N 100 ltac:(lia)) as Hdm.
  pose proof (Z.mod_pos_bound N 100 ltac:(lia)) as Hm.
  set (k := N / 100) in *. set (t := N mod 100) in *.
  pose proof (Z.div_mod (t * U) 100 ltac:(lia)) as Hw.
  pose proof (Z.mod_pos_bound (t * U) 100 ltac:(lia)) as Hrho.
  set (w := t * U / 100) in *. set (rho := (t * U) mod 100) in *.
  assert (HQ : N * U / 100 = k * U + w).
  { symmetry. apply (Z.div_unique _ _ _ rho); [lia|]. rewrite Hdm. nia. }
  assert (HR : (N * U) mod 100 = rho).
  { symmetry. apply (Z.mod_unique _ _ (k * U + w)); [lia|]. rewrite Hdm. nia. }
  rewrite HQ in Henc, Hex. rewrite HR in Hex.
  assert (HU2 : U = 2 * (U / 2)).
  { pose proof (Z.div_mod U 2 ltac:(lia)) as HdU.
    rewrite Zmod_even, Hev in HdU. lia. }
  set (u := U / 2) in *.
  replace (round_half_even N 100) with (round_half_even (k * 100 + t) 100)
    by (f_equal; lia).
  rewrite (round_half_even_split k t 100) by lia.
  destruct (Z.lt_trichotomy t 50) as [Hlt | [Heq | Hgt]].
  - (* below the half *)
    destruct (Z.ltb_spec 100 (2 * t)); try lia.
    destruct (Z.eqb_spec (2 * t) 100); try lia. cbv [orb andb].
    assert (Hf : 0 <= F - k * U /\ 2 * (F - k * U) < U).
    { destruct (Z.eq_dec t 0) as [Ht0 | Ht0].
      - assert (w = 0 /\ rho = 0) as [Hw0 Hr0] by nia.
        rewrite (Hex Hr0). lia.
      - nia. }
    replace F with (k * U + (F - k * U)) by lia.
    rewrite round_half_even_split by lia.
    destruct (Z.ltb_spec U (2 * (F - k * U))); try lia.
    destruct (Z.eqb_spec (2 * (F - k * U)) U); try lia. reflexivity.
  - (* exactly the half *)
    assert (w = u /\ rho = 0) as [Hw0 Hr0] by nia.
    rewrite (Hex Hr0), Hw0.
    rewrite round_half_even_split by lia.
    destruct (Z.ltb_spec U (2 * u)); try lia.
    destruct (Z.eqb_spec (2 * u) U); try lia.
    destruct (Z.ltb_spec 100 (2 * t)); try lia.
    destruct (Z.eqb_spec (2 * t) 100); try lia.
  - (* above the half *)
    destruct (Z.ltb_spec 100 (2 * t)); try lia. cbv [orb].
    assert (Hf : U < 2 * (F - k * U) /\ F - k * U < U) by nia.
    replace F with (k * U + (F - k * U)) by lia.
    rewrite round_half_even_split by lia.
    destruct (Z.ltb_spec U (2 * (F - k * U))); try lia. reflexivity.
Qed.

Lemma div_eucl_pair (a b : Z) : Z.div_eucl a b = (a / b, a mod b).
Proof. unfold Z.div, Z.modulo. destruct (Z.div_eucl a b); reflexivity. Qed.

(** The quotient and the remainder that [SFdiv] rounds when it divides a
    normal number by [100]. *)
Lemma div_hundred_core (mN : positive) (eN : Z) :
  Zpos (digits2_pos mN) = 53 -> -52 <= eN <= 0 ->
  SFdiv_core_binary prec emax (Zpos mN) eN (Zpos 7036874417766400) (-46) =
  (Zpos mN * 2 ^ 53 / Zpos 7036874417766400, eN - 7,
   new_location (Zpos 7036874417766400)
     (Zpos mN * 2 ^ 53 mod Zpos 7036874417766400)).
Proof.
  intros Hd He. unfold SFdiv_core_binary. cbv zeta. unfold Zdigits2. rewrite Hd.
  change (Zpos (digits2_pos 7036874417766400)) with 53.
  rewrite fexp_eq.
  replace (Z.min (fexp64 (53 + eN - (53 + -46))) (eN - -46)) with (eN - 7)
    by (unfold fexp64; lia).
  replace (eN - -46 - (eN - 7)) with 53 by lia.
  cbv iota. rewrite Z.shiftl_mul_pow2 by lia.
  rewrite div_eucl_pair. reflexivity.
Qed.

Lemma new_location_exact (r : Z) :
  r = 0 -> new_location (Zpos 7036874417766400) r = loc_Exact.
Proof. intros ->. reflexivity. Qed.

(** The quotient of an integer below [2 ^ 52] by [100]: a binary64 number
    within two units of the quotient, in units of [2 ^ (digits - 60)], and the
    quotient itself when it has no more digits than that. *)
Lemma div_int_hundred (N : positive) :
  Zpos N < 2 ^ 52 ->
  let e := Zpos (digits2_pos N) - 60 in
  let U := 2 ^ (- e) in
  exists (mF : positive) (eF : Z),
    div (of_int (Zpos N)) hundred = S754_finite false mF eF /\
    bounded prec emax mF eF = true /\
    e <= eF < 0 /\
    Zpos N * U / 100 - 1 <= Zpos mF * 2 ^ (eF - e) <= Zpos N * U / 100 + 2 /\
    ((Zpos N * U) mod 100 = 0 -> Zpos mF * 2 ^ (eF - e) = Zpos N * U / 100).
Proof.
  intros HN e U.
  assert (HN53 : Zpos N < 2 ^ 53) by (change (2 ^ 53) with (2 * 2 ^ 52); lia).
  pose proof (digits2_le N 52 HN) as Hd.
  pose proof (digits2_bounds N) as [Blo Bhi].
  set (dN := Zpos (digits2_pos N)) in *.
  assert (HdN : 1 <= dN) by (unfold dN; lia).
  rewrite of_int_pos by assumption. fold dN.
  unfold div, SFdiv, hundred.
  rewrite div_hundred_core; [|now apply int_mantissa_digits|lia].
  change (xorb false false) with false.
  rewrite int_mantissa_eq by assumption. fold dN.
  (* the quotient, in terms of N *)
  assert (HU : 0 < U) by (apply Z.pow_pos_nonneg; lia).
  assert (Hnum : Zpos N * 2 ^ (53 - dN) * 2 ^ 53 = Zpos N * U * 2 ^ 46).
  { unfold U, e. rewrite <- !Z.mul_assoc, <- !Z.pow_add_r by lia.
    f_equal. f_equal. lia. }
  change (Zpos 7036874417766400) with (100 * 2 ^ 46).
  rewrite Hnum.
  rewrite Z.div_mul_cancel_r by lia.
  rewrite Z.mul_mod_distr_r by lia.
  (* its size *)
  assert (HNU : 2 ^ 59 <= Zpos N * U < 2 ^ 60).
  { unfold U, e. replace (- (dN - 60)) with (60 - dN) by lia.
    split.
    - replace 59 with ((dN - 1) + (60 - dN)) by lia.
      rewrite Z.pow_add_r by lia.
      apply Z.mul_le_mono_nonneg_r; [lia | assumption].
    - replace 60 with (dN + (60 - dN)) at 2 by lia.
      rewrite Z.pow_add_r by lia.
      apply Z.mul_lt_mono_pos_r; [apply Z.pow_pos_nonneg; lia | assumption]. }
  assert (Hq : 2 ^ 52 <= Zpos N * U / 100 < 2 ^ 54).
  { split.
    - apply Z.div_le_lower_bound; [lia|].
      change (2 ^ 59) with (128 * 2 ^ 52) in HNU. lia.
    - apply Z.div_lt_upper_bound; [lia|].
      change (2 ^ 60) with (64 * 2 ^ 54) in HNU. lia. }
  destruct (Zpos N * U / 100) as [|q|q] eqn:Eq; try lia.
  replace (dN - 53 - 7) with e by (unfold e; lia).
  destruct (binary_round_aux_enclosure q e
              (new_location (100 * 2 ^ 46) ((Zpos N * U) mod 100 * 2 ^ 46))
              Hq ltac:(unfold e; lia))
    as (mF & eF & HF & Hb & HeF & Henc & Hex).
  exists mF, eF. split; [exact HF|]. split; [exact Hb|].
  split; [unfold e in *; lia|]. split; [exact Henc|].
  intros Hr. apply Hex.
  - rewrite Hr. reflexivity.
  - (* an exact quotient is even *)
    pose proof (Z.div_mod (Zpos N * U) 100 ltac:(lia)) as Hdm.
    rewrite Eq, Hr, Z.add_0_r in Hdm.
    assert (HU256 : U = 256 * 2 ^ (- e - 8)).
    { unfold U. replace (- e) with (8 + (- e - 8)) at 1 by lia.
      rewrite Z.pow_add_r by (unfold e; lia). reflexivity. }
    assert (H25 : 25 * Zpos q = 2 * (32 * (Zpos N * 2 ^ (- e - 8)))) by lia.
    assert (Hev : Z.even (25 * Zpos q) = true)
      by (rewrite H25; apply Z.even_mul).
    rewrite Z.even_mul in Hev. exact Hev.
Qed.

Section Percent.
Variable conv : float64 -> Z.

Lemma rint_zero : rint conv (S754_zero false) = 0.
Proof. reflexivity. Qed.

Lemma rint_quotient (N : positive) :
  Zpos N < 2 ^ 52 ->
  rint conv (div (of_int (Zpos N)) hundred) = round_half_even (Zpos N) 100.
Proof.
  intros HN.
  destruct (div_int_hundred N HN) as (mF & eF & HF & Hb & HeF & Henc & Hex).
  cbv zeta in *.
  pose proof (digits2_le N 52 HN) as Hd.
  set (e := Zpos (digits2_pos N) - 60) in *.
  rewrite HF.
  destruct (bounded_facts mF eF Hb) as [HmF _].
  assert (Hden : 1 <= 2 ^ (- eF)).
  { change 1 with (2 ^ 0). apply Z.pow_le_mono_r; lia. }
  rewrite rint_positive.
  - unfold numerator, denominator. rewrite cond_Zopp_false.
    destruct (Z.leb_spec 0 eF); try lia.
    assert (Hc : 0 < 2 ^ (eF - e)) by (apply Z.pow_pos_nonneg; lia).
    rewrite <- (round_half_even_scale (Zpos mF) (2 ^ (- eF)) (2 ^ (eF - e)))
      by lia.
    rewrite <- Z.pow_add_r by lia.
    replace (- eF + (eF - e)) with (- e) by lia.
    apply round_half_even_near; try assumption; try lia.
    + assert (2 ^ 8 <= 2 ^ (- e)) by (apply Z.pow_le_mono_r; unfold e; lia).
      change (2 ^ 8) with 256 in *. lia.
    + replace (- e) with (Z.succ (- e - 1)) by lia.
      rewrite Z.pow_succ_r by (unfold e; lia).
      rewrite Z.even_mul. reflexivity.
  - exact Hb.
  - unfold numerator, denominator. rewrite cond_Zopp_false.
    destruct (Z.leb_spec 0 eF); lia.
Qed.

(** Below [2 ^ 52] the float64 computation of a percentage is the exact
    rounding of the rational. *)
Theorem percentOf_exact (a p : Z) :
  0 <= a < 2 ^ 53 -> 0 <= p < 2 ^ 53 -> a * p < 2 ^ 52 ->
  percentOf conv a p = round_half_even (a * p) 100.
Proof.
  intros Ha Hp Hap. unfold percentOf.
  destruct a as [|a|a]; try lia; destruct p as [|p|p]; try lia.
  - reflexivity.
  - rewrite (of_int_pos p) by lia. reflexivity.
  - rewrite (of_int_pos a) by lia. reflexivity.
  - rewrite mul_int by (change (2 ^ 53) with (2 * 2 ^ 52); lia).
    change (Zpos a * Zpos p) with (Zpos (a * p)) in *.
    now apply rint_quotient.
Qed.
End Percent.

(** ** The properties of the calculator *)

Section Claims.

Variable conv : float64 -> Z.

Lemma percentOf_range (a p : Z) : U64.in_range (percentOf conv a p).
Proof. apply rint_range. Qed.

Lemma sum64_single (x : Z) : U64.in_range x -> sum64 [x] = x.
Proof. intros H. unfold sum64. simpl. unfold U64.add. now apply wrap_small. Qed.

Lemma sum64_ext (A : Type) (f g : A -> Z) (l : list A) :
  Forall (fun a => f a = g a) l -> sum64 (map f l) = sum64 (map g l).
Proof.
  intros H. f_equal. induction H as [|a l Ha _ IH]; simpl; congruence.
Qed.

(** C1: every per-item result and the order-level result satisfy
    [total == subtotal - discount + taxes], the expression being evaluated in
    unsigned 64-bit arithmetic as the code does. *)
Theorem total_invariant (settings : option Settings) (country currency : string)
    (coupon : option Coupon) (items : list Item) :
  let p := CalculatePrice conv settings country currency coupon items in
  Forall (fun ip =>
            Total ip = U64.add (U64.sub (Subtotal ip) (Discount ip)) (Taxes ip))
         (Items p) /\
  PTotal p = U64.add (U64.sub (PSubtotal p) (PDiscount p)) (PTaxes p).
Proof.
  intros p. split.
  - destruct (CalculatePrice_fields conv settings country currency coupon items)
      as (Hi & _).
    unfold p. rewrite Hi. apply Forall_forall. intros ip Hin.
    apply in_map_iff in Hin. destruct Hin as (item & <- & _). reflexivity.
  - reflexivity.
Qed.

(** C2: at a tie the tax-inclusive back-calculation leaves round-half-to-even:
    an item priced 69 under a 20% rule gets the subtotal 57, where
    [round(69 * 100 / 120) = round(57.5)] is 58; the example of the
    specification (1200 gives 1000, 200, 1200) holds. *)
Theorem inclusive_tie_diverges :
  let settings := Some (mkSettings true [mkTax 20 [] []]) in
  calculateItem conv settings "DE" None (mkItem 69 "book" 0 [] 1) =
    mkItemPrice 1 57 0 11 68 /\
  round_half_even (69 * 100) (100 + 20) = 58 /\
  round_half_even (58 * 20) 100 = 12 /\
  calculateItem conv settings "DE" None (mkItem 1200 "book" 0 [] 1) =
    mkItemPrice 1 1000 0 200 1200.
Proof. vm_compute. repeat split; reflexivity. Qed.

(** C3 (amended): under tax-exclusive pricing the subtotal of an item stays
    its raw unit price and its taxes are the sum over the tax amount pairs of
    [rint(float64(basis) * float64(percentage) / 100)] on the original basis;
    that is the exact round-half-to-even of [basis * percentage / 100] for
    every pair with basis and percentage below [2 ^ 53] and a product below
    [2 ^ 52]; an item priced 1000 with one matching 20% rule gives 1000, 200,
    0, 1200. *)
Theorem exclusive_tax (settings : option Settings) (country : string)
    (coupon : option Coupon) (item : Item) :
  includesTaxes settings = false ->
  let amounts := taxAmounts settings country item in
  let ip := calculateItem conv settings country coupon item in
  Subtotal ip = PriceInLowestUnit item /\
  Taxes ip =
    sum64 (map (fun a => percentOf conv (price a) (percentage a)) amounts) /\
  (Forall (fun a => 0 <= price a < 2 ^ 53 /\ 0 <= percentage a < 2 ^ 53 /\
                    price a * percentage a < 2 ^ 52) amounts ->
   Taxes ip =
     sum64 (map (fun a => round_half_even (price a * percentage a) 100) amounts)) /\
  calculateItem conv (Some (mkSettings false [mkTax 20 ["book"%string] ["DE"%string]]))
    "DE" None (mkItem 1000 "book" 0 [] 1) = mkItemPrice 1 1000 0 200 1200.
Proof.
  intros Hincl amounts ip.
  destruct (calculateItem_fields conv settings country coupon item)
    as (_ & Hs & Hx & _).
  fold ip in Hs, Hx. fold amounts in Hs, Hx. rewrite Hincl in Hs, Hx.
  assert (Ht : Taxes ip =
               sum64 (map (fun a => percentOf conv (price a) (percentage a)) amounts)).
  { rewrite Hx. reflexivity. }
  split; [|split; [exact Ht|split]].
  - rewrite Hs. now destruct amounts.
  - intros Hall. rewrite Ht. apply sum64_ext.
    apply Forall_impl with (2 := Hall). intros a (Hp & Hq & Hpq).
    now apply percentOf_exact.
  - vm_compute. reflexivity.
Qed.

(** C4 (amended): without settings an item whose fixed VAT is 0 gets no tax
    amounts, taxes 0 and its raw unit price as subtotal, whatever its taxable
    sub-items; an item with a fixed VAT is still taxed at that percentage on
    its raw price, its subtotal staying the raw price. *)
Theorem absent_settings (country : string) (coupon : option Coupon) (item : Item) :
  let ip := calculateItem conv None country coupon item in
  Subtotal ip = PriceInLowestUnit item /\
  taxAmounts None country item =
    (if FixedVAT item =? 0 then []
     else [mkTaxAmount (PriceInLowestUnit item) (FixedVAT item)]) /\
  Taxes ip =
    (if FixedVAT item =? 0 then 0
     else percentOf conv (PriceInLowestUnit item) (FixedVAT item)).
Proof.
  intros ip.
  destruct (calculateItem_fields conv None country coupon item)
    as (_ & Hs & Hx & _).
  fold ip in Hs, Hx. simpl includesTaxes in Hs, Hx.
  assert (Ha : taxAmounts None country item =
               (if FixedVAT item =? 0 then []
                else [mkTaxAmount (PriceInLowestUnit item) (FixedVAT item)])).
  { unfold taxAmounts. now destruct (FixedVAT item =? 0). }
  rewrite Ha in Hs, Hx. split; [|split; [exact Ha|]].
  - rewrite Hs. now destruct (FixedVAT item =? 0).
  - rewrite Hx. destruct (FixedVAT item =? 0); [reflexivity|].
    simpl map. apply sum64_single. apply percentOf_range.
Qed.

(** C5: a rule applies when each of its filters is empty or contains the
    value; the loop over the rules returns the first rule that applies, with
    no applicable rule before it, and none when no rule applies; a simple item
    gets one tax amount, with the percentage of that first rule, or no tax
    amount. *)
Theorem first_matching_rule (taxes : list Tax) (country productType : string) :
  (forall t, AppliesTo t country productType = true <->
             ruleMatches country productType t) /\
  match firstApplicable taxes country productType with
  | Some t =>
      exists before after,
        taxes = before ++ t :: after /\
        ruleMatches country productType t /\
        Forall (fun t' => ~ ruleMatches country productType t') before
  | None => Forall (fun t' => ~ ruleMatches country productType t') taxes
  end /\
  (forall (includes : bool) (p q : Z),
     taxAmounts (Some (mkSettings includes taxes)) country
       (mkItem p productType 0 [] q) =
     match firstApplicable taxes country productType with
     | Some t => [mkTaxAmount p (Percentage t)]
     | None => []
     end).
Proof.
  split; [|split].
  - intros t. apply AppliesTo_spec.
  - apply firstApplicable_spec.
  - intros includes p q. reflexivity.
Qed.

(** C6 (amended): with a coupon valid for the item's product type the discount
    is [rint(float64(base) * float64(percentageDiscount) / 100)], the base
    being the subtotal under tax-exclusive pricing and subtotal + taxes under
    tax-inclusive pricing; that is the exact round-half-to-even of
    [base * percentageDiscount / 100] when base and percentage are below
    [2 ^ 53] and their product is below [2 ^ 52]; otherwise the discount is 0;
    the fixed discount and the price check of the coupon are never consulted;
    an item priced 1000 with 20% exclusive tax and a valid 10% coupon gets the
    discount 100 and the total 1100. *)
Theorem coupon_discount (settings : option Settings) (country : string)
    (coupon : option Coupon) (item : Item) :
  let ip := calculateItem conv settings country coupon item in
  let base := discountBase (includesTaxes settings) ip in
  Discount ip =
    match coupon with
    | Some c =>
        if ValidForType c (ProductType item)
        then percentOf conv base (PercentageDiscount c)
        else 0
    | None => 0
    end /\
  (forall c, coupon = Some c -> ValidForType c (ProductType item) = true ->
     0 <= base < 2 ^ 53 -> 0 <= PercentageDiscount c < 2 ^ 53 ->
     base * PercentageDiscount c < 2 ^ 52 ->
     Discount ip = round_half_even (base * PercentageDiscount c) 100) /\
  (forall valid forPrice forPrice' pct fixed fixed',
     calculateItem conv settings country
       (Some (mkCoupon valid forPrice pct fixed)) item =
     calculateItem conv settings country
       (Some (mkCoupon valid forPrice' pct fixed')) item) /\
  calculateItem conv (Some (mkSettings false [mkTax 20 [] []])) "DE"
    (Some (mkCoupon (fun t => String.eqb t "book") (fun _ _ => false) 10 0))
    (mkItem 1000 "book" 0 [] 1) = mkItemPrice 1 1000 100 200 1100.
Proof.
  intros ip base.
  destruct (calculateItem_fields conv settings country coupon item)
    as (_ & _ & _ & Hd & _).
  fold ip in Hd. fold base in Hd.
  split; [exact Hd|split; [|split]].
  - intros c -> Hv Hb Hp Hbp. rewrite Hd, Hv. now apply percentOf_exact.
  - reflexivity.
  - vm_compute. reflexivity.
Qed.

(** C7: the result holds one per-item result per input item, in input order;
    the order-level subtotal, discount and taxes are the sums, accumulated in
    that order, of the unit amounts times the quantities; the order total is
    computed after the loop from these three; an item of quantity 3 and unit
    total 1100 gives the order total 3300. *)
Theorem aggregation (settings : option Settings) (country currency : string)
    (coupon : option Coupon) (items : list Item) :
  let rs := map (calculateItem conv settings country coupon) items in
  let p := CalculatePrice conv settings country currency coupon items in
  Items p = rs /\
  PSubtotal p = sum64 (map (fun r => U64.mul (Subtotal r) (Quantity r)) rs) /\
  PDiscount p = sum64 (map (fun r => U64.mul (Discount r) (Quantity r)) rs) /\
  PTaxes p = sum64 (map (fun r => U64.mul (Taxes r) (Quantity r)) rs) /\
  PTotal p = U64.add (U64.sub (PSubtotal p) (PDiscount p)) (PTaxes p) /\
  CalculatePrice conv (Some (mkSettings false [mkTax 20 [] []])) "DE" currency
    (Some (mkCoupon (fun _ => true) (fun _ _ => true) 10 0))
    [mkItem 1000 "book" 0 [] 3] =
  mkPrice [mkItemPrice 3 1000 100 200 1100] 3000 300 600 3300.
Proof.
  intros rs p.
  destruct (CalculatePrice_fields conv settings country currency coupon items)
    as (Hi & Hs & Hd & Hx & _).
  repeat split; try assumption.
Qed.

(** C8 (amended): for a positive binary64 number whose integral part is below
    [2 ^ 64], [rint] is round half to even: with [v] the integral part and
    [frac] the remainder it returns [v + 1] exactly when [frac > 0.5] or
    [frac == 0.5] and [v] is odd, and [v] otherwise; of zero it returns 0;
    of no number it returns a negative value. *)
Theorem rint_rounds_half_to_even (m : positive) (e : Z) :
  let x := S754_finite false m e in
  bounded prec emax m e = true ->
  numerator x < 2 ^ 64 * denominator x ->
  rint conv x = round_half_even (numerator x) (denominator x) /\
  rint conv (S754_zero false) = 0 /\ rint conv (S754_zero true) = 0 /\
  (forall y, 0 <= rint conv y < 2 ^ 64).
Proof.
  intros x Hb Hr. split; [|split; [|split]]; try reflexivity.
  - now apply rint_positive.
  - intros y. apply rint_range.
Qed.

(** C9: an item without fixed VAT and with taxable sub-items gets one tax
    amount per sub-item, in order, with the price of the sub-item as basis and
    the percentage of the first rule that applies to the product type of the
    sub-item, 0 when none does; its taxes are the sum of the taxes of these
    amounts, each rounded on its own, whatever the price of the parent. *)
Theorem sub_items_taxed_individually (st : Settings) (country : string)
    (coupon : option Coupon) (p q : Z) (productType : string)
    (sub : Item) (subs : list Item) :
  let item := mkItem p productType 0 (sub :: subs) q in
  let amounts :=
    map (fun s => mkTaxAmount (PriceInLowestUnit s)
                    (percentageFor (SettingsTaxes st) country (ProductType s)))
        (sub :: subs) in
  taxAmounts (Some st) country item = amounts /\
  Taxes (calculateItem conv (Some st) country coupon item) =
    sum64 (map (taxOf conv (PricesIncludeTaxes st)) amounts) /\
  (forall p',
     Taxes (calculateItem conv (Some st) country coupon
              (mkItem p' productType 0 (sub :: subs) q)) =
     Taxes (calculateItem conv (Some st) country coupon item)) /\
  (let rules := [mkTax 10 ["food"%string] []; mkTax 30 ["wine"%string] []] in
   let bundle :=
     mkItem 20 "bundle" 0
       [mkItem 15 "food" 0 [] 1; mkItem 5 "wine" 0 [] 1] 1 in
   PTaxes (CalculatePrice conv (Some (mkSettings false rules)) "DE" "EUR" None
             [bundle]) = 4 /\
   percentOf conv 15 10 + percentOf conv 5 30 = 4 /\
   percentOf conv 20 10 = 2 /\ percentOf conv 20 30 = 6).
Proof.
  intros item amounts.
  assert (Ha : forall p', taxAmounts (Some st) country
                            (mkItem p' productType 0 (sub :: subs) q) = amounts).
  { intros p'.
    change (taxAmounts (Some st) country
              (mkItem p' productType 0 (sub :: subs) q))
      with (map (subItemAmount st country) (sub :: subs)).
    unfold amounts. apply map_ext. intros s.
    unfold subItemAmount, percentageFor.
    now destruct (firstApplicable _ _ _). }
  assert (Hx : forall p',
             Taxes (calculateItem conv (Some st) country coupon
                      (mkItem p' productType 0 (sub :: subs) q)) =
             sum64 (map (taxOf conv (PricesIncludeTaxes st)) amounts)).
  { intros p'.
    destruct (calculateItem_fields conv (Some st) country coupon
                (mkItem p' productType 0 (sub :: subs) q))
      as (_ & _ & Hx & _).
    rewrite Hx, Ha. reflexivity. }
  split; [apply Ha|split; [apply Hx|split]].
  - intros p'. unfold item. now rewrite !Hx.
  - vm_compute. repeat split; reflexivity.
Qed.

Lemma calculateItem_range (settings : option Settings) (country : string)
    (coupon : option Coupon) (item : Item) :
  U64.in_range (PriceInLowestUnit item) ->
  let ip := calculateItem conv settings country coupon item in
  U64.in_range (Subtotal ip) /\ U64.in_range (Discount ip) /\
  U64.in_range (Taxes ip) /\ U64.in_range (Total ip).
Proof.
  intros Hp ip.
  destruct (calculateItem_fields conv settings country coupon item)
    as (_ & Hs & Hx & Hd & Ht).
  fold ip in Hs, Hx, Hd, Ht.
  assert (R0 : U64.in_range 0) by (unfold U64.in_range, U64.modulus; lia).
  assert (Rsum : forall l, U64.in_range (sum64 l))
    by (intros l; apply fold_add_range; exact R0).
  split; [|split; [|split]].
  - rewrite Hs. destruct (taxAmounts settings country item); [exact Hp|].
    destruct (includesTaxes settings); [apply Rsum | exact Hp].
  - rewrite Hd. destruct coupon as [c|]; [|exact R0].
    destruct (ValidForType c (ProductType item));
      [apply percentOf_range | exact R0].
  - rewrite Hx. apply Rsum.
  - rewrite Ht. apply wrap_range.
Qed.

(** C10: for an item whose price is an unsigned 64-bit integer, subtotal,
    discount, taxes and total are unsigned 64-bit integers, and when the
    discount exceeds subtotal + taxes the total wraps around to
    [subtotal - discount + taxes + 2 ^ 64], a value above subtotal + taxes;
    an item priced 1000 under a 20% tax-exclusive rule with a coupon of 250%
    gets the discount 2500 and the total [2 ^ 64 - 1300], where it gets the
    total 1200 without the coupon. *)
Theorem discount_above_base_wraps (settings : option Settings) (country : string)
    (coupon : option Coupon) (item : Item) :
  U64.in_range (PriceInLowestUnit item) ->
  let ip := calculateItem conv settings country coupon item in
  (U64.in_range (Subtotal ip) /\ U64.in_range (Discount ip) /\
   U64.in_range (Taxes ip) /\ U64.in_range (Total ip)) /\
  (Subtotal ip + Taxes ip < Discount ip ->
   Total ip = Subtotal ip - Discount ip + Taxes ip + 2 ^ 64 /\
   Subtotal ip + Taxes ip < Total ip) /\
  (let st := Some (mkSettings false [mkTax 20 [] []]) in
   let c := mkCoupon (fun _ => true) (fun _ _ => true) 250 0 in
   includesTaxes st = false /\ 100 < PercentageDiscount c /\
   calculateItem conv st "DE" (Some c) (mkItem 1000 "book" 0 [] 1) =
     mkItemPrice 1 1000 2500 200 (2 ^ 64 - 1300) /\
   1000 + 200 < 2500 /\ 1000 + 200 < 2 ^ 64 - 1300 /\
   calculateItem conv st "DE" None (mkItem 1000 "book" 0 [] 1) =
     mkItemPrice 1 1000 0 200 1200).
Proof.
  intros Hp ip.
  pose proof (calculateItem_range settings country coupon item Hp) as HR.
  fold ip in HR. destruct HR as (Rs & Rd & Rx & Rt).
  split; [auto|]. split.
  - intros Hlt.
    destruct (calculateItem_fields conv settings country coupon item)
      as (_ & _ & _ & _ & Ht).
    fold ip in Ht. unfold U64.in_range, U64.modulus in *.
    assert (E : Total ip = Subtotal ip - Discount ip + Taxes ip + 2 ^ 64).
    { rewrite Ht. unfold U64.wrap, U64.modulus. symmetry.
      apply (Z.mod_unique _ _ (-1)); lia. }
    split; [exact E | lia].
  - vm_compute. repeat split; reflexivity.
Qed.

End Claims.

(** ** Further properties of the calculator *)

Section Extras.

Variable conv : float64 -> Z.

Lemma round_half_even_exact (n d : Z) :
  0 < d -> round_half_even (n * d) d = n.
Proof.
  intros Hd. rewrite <- (Z.add_0_r (n * d)).
  rewrite round_half_even_split by lia.
  destruct (Z.ltb_spec d (2 * 0)); try lia.
  destruct (Z.eqb_spec (2 * 0) d); try lia. reflexivity.
Qed.

Lemma round_half_even_le (a p : Z) :
  0 <= a -> 0 <= p <= 100 -> round_half_even (a * p) 100 <= a.
Proof.
  intros Ha Hp.
  pose proof (Z.div_mod (a * p) 100 ltac:(lia)) as Hdm.
  pose proof (Z.mod_pos_bound (a * p) 100 ltac:(lia)) as Hm.
  unfold round_half_even.
  destruct ((100 <? 2 * ((a * p) mod 100))
            || ((2 * ((a * p) mod 100) =? 100) && Z.odd (a * p / 100))) eqn:E.
  - assert (50 <= (a * p) mod 100).
    { apply orb_true_iff in E. destruct E as [E|E].
      - apply Z.ltb_lt in E. lia.
      - apply andb_true_iff in E. destruct E as [E _].
        apply Z.eqb_eq in E. lia. }
    nia.
  - nia.
Qed.

(** Whole amounts are left as they are: [rint(float64(n))] is [n] for every
    [n] below [2 ^ 53]. *)
Theorem rint_of_int (n : Z) :
  0 <= n < 2 ^ 53 -> rint conv (of_int n) = n.
Proof.
  intros Hn. destruct n as [|n|n]; try lia; [reflexivity|].
  assert (H53 : Zpos n < 2 ^ 53) by lia.
  pose proof (digits2_le n 53 H53) as Hd.
  rewrite of_int_pos by assumption.
  assert (Hb : bounded prec emax (int_mantissa n) (Zpos (digits2_pos n) - 53) = true).
  { apply bounded_intro; [|lia].
    rewrite int_mantissa_digits by assumption. unfold fexp64. lia. }
  assert (Hpow : 0 < 2 ^ (53 - Zpos (digits2_pos n)))
    by (apply Z.pow_pos_nonneg; lia).
  rewrite rint_positive; try assumption;
    unfold numerator, denominator; rewrite cond_Zopp_false;
    rewrite int_mantissa_eq by assumption;
    destruct (Z.leb_spec 0 (Zpos (digits2_pos n) - 53)).
  - replace (53 - Zpos (digits2_pos n)) with 0 by lia.
    replace (Zpos (digits2_pos n) - 53) with 0 by lia.
    change (2 ^ 0) with 1. rewrite !Z.mul_1_r.
    rewrite <- (Z.mul_1_r (Zpos n)) at 1. apply round_half_even_exact. lia.
  - replace (- (Zpos (digits2_pos n) - 53)) with (53 - Zpos (digits2_pos n)) by lia.
    apply round_half_even_exact. assumption.
  - replace (53 - Zpos (digits2_pos n)) with 0 by lia.
    replace (Zpos (digits2_pos n) - 53) with 0 by lia.
    change (2 ^ 0) with 1. lia.
  - replace (- (Zpos (digits2_pos n) - 53)) with (53 - Zpos (digits2_pos n)) by lia.
    nia.
Qed.

(** A rate of 0% gives 0 and a rate of 100% gives the amount itself, for
    amounts up to [2 ^ 52 / 100]. *)
Theorem percentOf_zero_and_hundred (a : Z) :
  0 <= a -> a * 100 < 2 ^ 52 ->
  percentOf conv a 0 = 0 /\ percentOf conv a 100 = a.
Proof.
  intros Ha Hb. split.
  - rewrite percentOf_exact by lia. now rewrite Z.mul_0_r.
  - rewrite percentOf_exact by lia. apply round_half_even_exact. lia.
Qed.

Lemma percentOf_bounds (a p : Z) :
  0 <= a < 2 ^ 53 -> 0 <= p <= 100 -> a * p < 2 ^ 52 ->
  0 <= percentOf conv a p <= a.
Proof.
  intros Ha Hp Hap. split.
  - apply percentOf_range.
  - rewrite percentOf_exact by lia. apply round_half_even_le; lia.
Qed.

(** A percentage of at most 100 of an amount never exceeds the amount. *)
Theorem percentOf_le_amount (a p : Z) :
  0 <= a < 2 ^ 53 -> 0 <= p <= 100 -> a * p < 2 ^ 52 ->
  0 <= percentOf conv a p <= a.
Proof. apply percentOf_bounds. Qed.

(** With a coupon of at most 100% under tax-exclusive pricing the discount
    of an item never exceeds its subtotal, and its total is the integer
    [subtotal - discount + taxes] whenever that fits 64 bits: nothing wraps
    around. *)
Theorem total_without_wrap (settings : option Settings) (country : string)
    (c : Coupon) (item : Item) :
  includesTaxes settings = false ->
  0 <= PriceInLowestUnit item -> PriceInLowestUnit item * 100 < 2 ^ 52 ->
  0 <= PercentageDiscount c <= 100 ->
  let ip := calculateItem conv settings country (Some c) item in
  0 <= Discount ip <= Subtotal ip /\
  (Subtotal ip - Discount ip + Taxes ip < 2 ^ 64 ->
   Total ip = Subtotal ip - Discount ip + Taxes ip).
Proof.
  intros Hincl Hp0 Hp Hc ip.
  destruct (calculateItem_fields conv settings country (Some c) item)
    as (_ & Hs & Hx & Hd & Ht).
  fold ip in Hs, Hx, Hd, Ht. rewrite Hincl in Hs, Hx, Hd.
  assert (Es : Subtotal ip = PriceInLowestUnit item).
  { rewrite Hs. now destruct (taxAmounts settings country item). }
  assert (Rx : U64.in_range (Taxes ip)).
  { rewrite Hx. unfold sum64. apply fold_add_range.
    unfold U64.in_range, U64.modulus. lia. }
  assert (Rd : 0 <= Discount ip <= Subtotal ip).
  { rewrite Hd. unfold discountBase. rewrite Es.
    destruct (ValidForType c (ProductType item)); [|lia].
    apply percentOf_bounds; nia. }
  split; [exact Rd|]. intros Hfit. rewrite Ht. apply wrap_small.
  unfold U64.in_range, U64.modulus in *. lia.
Qed.

(** Under tax-inclusive pricing an item with tax amounts has as subtotal the
    sum of the backed-out bases and as taxes the sum of the taxes on these
    backed-out bases; an item without tax amounts keeps its raw price and has
    no taxes. *)
Theorem inclusive_tax (st : Settings) (country : string)
    (coupon : option Coupon) (item : Item) :
  PricesIncludeTaxes st = true ->
  let amounts := taxAmounts (Some st) country item in
  let ip := calculateItem conv (Some st) country coupon item in
  Subtotal ip =
    match amounts with
    | [] => PriceInLowestUnit item
    | _ :: _ =>
        sum64 (map (fun a => backOut conv (price a) (percentage a)) amounts)
    end /\
  Taxes ip =
    sum64 (map (fun a => percentOf conv (backOut conv (price a) (percentage a))
                           (percentage a)) amounts).
Proof.
  intros Hincl amounts ip.
  destruct (calculateItem_fields conv (Some st) country coupon item)
    as (_ & Hs & Hx & _).
  fold ip in Hs, Hx. fold amounts in Hs, Hx.
  simpl includesTaxes in Hs, Hx. rewrite Hincl in Hs, Hx.
  split; [exact Hs|]. rewrite Hx. reflexivity.
Qed.

(** A fixed VAT overrides everything else: the item is taxed on its own price
    at that percentage, whatever the rules of the settings and whatever its
    taxable sub-items. *)
Theorem fixed_vat_overrides (includes : bool) (rules rules' : list Tax)
    (country : string) (coupon : option Coupon)
    (p q v : Z) (productType : string) (subs subs' : list Item) :
  v <> 0 ->
  taxAmounts (Some (mkSettings includes rules)) country
    (mkItem p productType v subs q) = [mkTaxAmount p v] /\
  calculateItem conv (Some (mkSettings includes rules)) country coupon
    (mkItem p productType v subs q) =
  calculateItem conv (Some (mkSettings includes rules')) country coupon
    (mkItem p productType v subs' q).
Proof.
  intros Hv.
  assert (Ha : forall r s, taxAmounts (Some (mkSettings includes r)) country
                             (mkItem p productType v s q) = [mkTaxAmount p v]).
  { intros r s. unfold taxAmounts. simpl.
    destruct (Z.eqb_spec v 0); [contradiction | reflexivity]. }
  split; [apply Ha|].
  unfold calculateItem. now rewrite !Ha.
Qed.

(** Of a taxable sub-item only the price and the product type are read: its
    own fixed VAT, its quantity and its own sub-items change nothing. *)
Theorem sub_item_details_ignored (settings : option Settings) (country : string)
    (coupon : option Coupon) (p q v : Z) (productType : string)
    (subs : list Item) :
  calculateItem conv settings country coupon (mkItem p productType v subs q) =
  calculateItem conv settings country coupon
    (mkItem p productType v
       (map (fun s => mkItem (PriceInLowestUnit s) (ProductType s) 0 [] 1) subs)
       q).
Proof.
  assert (Ha : taxAmounts settings country (mkItem p productType v subs q) =
               taxAmounts settings country
                 (mkItem p productType v
                    (map (fun s => mkItem (PriceInLowestUnit s) (ProductType s) 0 [] 1)
                       subs) q)).
  { unfold taxAmounts. simpl.
    destruct (negb (v =? 0)); [reflexivity|].
    destruct settings as [st|]; [|reflexivity].
    destruct subs as [|s subs]; [reflexivity|].
    simpl. f_equal. rewrite map_map. apply map_ext. intros s'. reflexivity. }
  unfold calculateItem. now rewrite Ha.
Qed.

(** Rules appended to a list never change a match the list already gives;
    they are consulted only when no rule of the list applies. *)
Theorem firstApplicable_app (taxes more : list Tax) (country productType : string) :
  firstApplicable (taxes ++ more) country productType =
  match firstApplicable taxes country productType with
  | Some t => Some t
  | None => firstApplicable more country productType
  end.
Proof.
  induction taxes as [|t taxes IH]; simpl; [reflexivity|].
  now destruct (AppliesTo t country productType).
Qed.

(** *** The order-level sums *)

Lemma wrap_sub_l (a b : Z) : U64.wrap (U64.wrap a - b) = U64.wrap (a - b).
Proof.
  unfold U64.wrap. now rewrite Zminus_mod_idemp_l.
Qed.

Lemma wrap_sub_r (a b : Z) : U64.wrap (a - U64.wrap b) = U64.wrap (a - b).
Proof.
  unfold U64.wrap. now rewrite Zminus_mod_idemp_r.
Qed.

Lemma wrap_wrap (a : Z) : U64.wrap (U64.wrap a) = U64.wrap a.
Proof.
  unfold U64.wrap. apply Z.mod_mod. unfold U64.modulus. lia.
Qed.

Lemma wrap_sub_add (a b c : Z) :
  U64.wrap (U64.wrap a - U64.wrap b + U64.wrap c) = U64.wrap (a - b + c).
Proof.
  rewrite wrap_add_r, <- wrap_add_l, wrap_sub_l, wrap_sub_r, wrap_add_l.
  reflexivity.
Qed.

Ltac strip_wraps :=
  unfold U64.add, U64.sub, U64.mul;
  repeat (rewrite wrap_wrap || rewrite wrap_add_l || rewrite wrap_add_r
          || rewrite wrap_sub_l || rewrite wrap_sub_r || rewrite wrap_mul_l).

Lemma wrap_sum_map {A : Type} (f : A -> Z) (l : list A) :
  U64.wrap (fold_right Z.add 0 (map (fun a => U64.wrap (f a)) l)) =
  U64.wrap (fold_right Z.add 0 (map f l)).
Proof.
  induction l as [|a l IH]; simpl; [reflexivity|].
  rewrite wrap_add_l, <- wrap_add_r, IH, wrap_add_r. reflexivity.
Qed.

Lemma sum64_map_wrap {A : Type} (f : A -> Z) (l : list A) :
  sum64 (map (fun a => U64.wrap (f a)) l) =
  U64.wrap (fold_right Z.add 0 (map f l)).
Proof. rewrite sum64_wrap. apply wrap_sum_map. Qed.

Lemma sum64_app (l1 l2 : list Z) :
  sum64 (l1 ++ l2) = U64.add (sum64 l1) (sum64 l2).
Proof.
  rewrite !sum64_wrap. strip_wraps. f_equal.
  induction l1 as [|x l1 IH]; simpl; lia.
Qed.

Lemma weighted_sums (rs : list ItemPrice) :
  fold_right Z.add 0 (map (fun r => Subtotal r * Quantity r) rs)
  - fold_right Z.add 0 (map (fun r => Discount r * Quantity r) rs)
  + fold_right Z.add 0 (map (fun r => Taxes r * Quantity r) rs) =
  fold_right Z.add 0
    (map (fun r => (Subtotal r - Discount r + Taxes r) * Quantity r) rs).
Proof.
  induction rs as [|r rs IH]; simpl; [reflexivity|]. rewrite <- IH. ring.
Qed.

(** The order total computed after the loop always agrees with the sum of
    the item totals times the quantities which the loop accumulates and the
    code then overwrites. *)
Theorem order_total_is_sum_of_item_totals (settings : option Settings)
    (country currency : string) (coupon : option Coupon) (items : list Item) :
  let p := CalculatePrice conv settings country currency coupon items in
  PTotal p = sum64 (map (fun r => U64.mul (Total r) (Quantity r)) (Items p)).
Proof.
  intros p.
  destruct (CalculatePrice_fields conv settings country currency coupon items)
    as (Hi & Hs & Hd & Hx & Ht).
  fold p in Hi, Hs, Hd, Hx, Ht.
  set (rs := map (calculateItem conv settings country coupon) items) in *.
  assert (Hr : map (fun r => U64.mul (Total r) (Quantity r)) rs =
               map (fun r => U64.wrap ((Subtotal r - Discount r + Taxes r)
                                       * Quantity r)) rs).
  { unfold rs. rewrite !map_map. apply map_ext. intros item.
    destruct (calculateItem_fields conv settings country coupon item)
      as (_ & _ & _ & _ & Et).
    cbv zeta in Et. rewrite Et. now strip_wraps. }
  rewrite Ht, Hs, Hd, Hx, Hi, Hr.
  unfold U64.mul. rewrite !sum64_map_wrap, wrap_sub_add.
  now rewrite weighted_sums.
Qed.

(** Pricing two lists of items one after the other: the per-item results
    are those of the first list followed by those of the second, and every
    order-level amount is the sum, modulo [2 ^ 64], of the two amounts. *)
Theorem CalculatePrice_app (settings : option Settings)
    (country currency : string) (coupon : option Coupon) (xs ys : list Item) :
  let p := CalculatePrice conv settings country currency coupon (xs ++ ys) in
  let px := CalculatePrice conv settings country currency coupon xs in
  let py := CalculatePrice conv settings country currency coupon ys in
  Items p = Items px ++ Items py /\
  PSubtotal p = U64.add (PSubtotal px) (PSubtotal py) /\
  PDiscount p = U64.add (PDiscount px) (PDiscount py) /\
  PTaxes p = U64.add (PTaxes px) (PTaxes py) /\
  PTotal p = U64.add (PTotal px) (PTotal py).
Proof.
  intros p px py.
  destruct (CalculatePrice_fields conv settings country currency coupon (xs ++ ys))
    as (Hi & Hs & Hd & Hx & Ht).
  destruct (CalculatePrice_fields conv settings country currency coupon xs)
    as (Hi1 & Hs1 & Hd1 & Hx1 & Ht1).
  destruct (CalculatePrice_fields conv settings country currency coupon ys)
    as (Hi2 & Hs2 & Hd2 & Hx2 & Ht2).
  fold p in Hi, Hs, Hd, Hx, Ht. fold px in Hi1, Hs1, Hd1, Hx1, Ht1.
  fold py in Hi2, Hs2, Hd2, Hx2, Ht2.
  cbv zeta in Hi, Hs, Hd, Hx.
  rewrite map_app in Hi. rewrite !map_app, sum64_app in Hs.
  rewrite !map_app, sum64_app in Hd. rewrite !map_app, sum64_app in Hx.
  rewrite <- Hs1, <- Hs2 in Hs. rewrite <- Hd1, <- Hd2 in Hd.
  rewrite <- Hx1, <- Hx2 in Hx. rewrite <- Hi1, <- Hi2 in Hi.
  repeat (split; [assumption|]).
  rewrite Ht, Ht1, Ht2, Hs, Hd, Hx. unfold U64.add.
  rewrite wrap_sub_add, wrap_add_l, wrap_add_r. f_equal. lia.
Qed.

Lemma sum64_zero {A : Type} (f : A -> Z) (l : list A) :
  Forall (fun a => f a = 0) l -> sum64 (map f l) = 0.
Proof.
  intros H. rewrite sum64_wrap.
  replace (fold_right Z.add 0 (map f l)) with 0; [reflexivity|].
  induction H as [|a l Ha _ IH]; simpl; lia.
Qed.

(** Without settings and without coupon, items that carry no fixed VAT cost
    what they are priced: the order has no taxes and no discount, and its
    total is its subtotal, the sum of price times quantity. *)
Theorem plain_pricing (country currency : string) (items : list Item) :
  Forall (fun i => FixedVAT i = 0) items ->
  let p := CalculatePrice conv None country currency None items in
  PDiscount p = 0 /\ PTaxes p = 0 /\
  PSubtotal p =
    sum64 (map (fun i => U64.mul (PriceInLowestUnit i) (GetQuantity i)) items) /\
  PTotal p = PSubtotal p.
Proof.
  intros Hall p.
  destruct (CalculatePrice_fields conv None country currency None items)
    as (_ & Hs & Hd & Hx & Ht).
  fold p in Hs, Hd, Hx, Ht. rewrite map_map in Hs, Hd, Hx.
  assert (Hitem : Forall (fun i =>
            let r := calculateItem conv None country None i in
            Subtotal r = PriceInLowestUnit i /\ Quantity r = GetQuantity i /\
            Discount r = 0 /\ Taxes r = 0) items).
  { apply Forall_impl with (2 := Hall). intros i Hv.
    destruct (calculateItem_fields conv None country None i)
      as (Eq & Es & Ex & Ed & _).
    assert (Ea : taxAmounts None country i = []).
    { unfold taxAmounts. rewrite Hv. reflexivity. }
    cbv zeta in *. rewrite Ea in Es, Ex. auto. }
  assert (Ed : PDiscount p = 0).
  { rewrite Hd. apply sum64_zero. apply Forall_impl with (2 := Hitem).
    intros i (_ & _ & -> & _). reflexivity. }
  assert (Ex : PTaxes p = 0).
  { rewrite Hx. apply sum64_zero. apply Forall_impl with (2 := Hitem).
    intros i (_ & _ & _ & ->). reflexivity. }
  assert (Es : PSubtotal p =
               sum64 (map (fun i => U64.mul (PriceInLowestUnit i) (GetQuantity i))
                        items)).
  { rewrite Hs. apply sum64_ext. apply Forall_impl with (2 := Hitem).
    intros i (-> & -> & _). reflexivity. }
  repeat (split; [assumption|]).
  rewrite Ht, Ed, Ex, Z.sub_0_r, Z.add_0_r. apply wrap_small.
  rewrite Hs. unfold sum64. apply fold_add_range.
  unfold U64.in_range, U64.modulus. lia.
Qed.

End Extras.

(** ** The validation of the configuration *)

Section ConfProperties.

Import Conf.

Variable Getenv : string -> string.
Variable urlScheme : string -> string + string.
Variable Atoi : string -> Z + string.

Ltac eqb_facts :=
  repeat match goal with
    | H : (_ =? _)%string = true |- _ => apply String.eqb_eq in H
    | H : (_ =? _)%string = false |- _ => apply String.eqb_neq in H
    | H : (_ =? _)%Z = true |- _ => apply Z.eqb_eq in H
    | H : (_ =? _)%Z = false |- _ => apply Z.eqb_neq in H
    end.

Ltac validate_step :=
  match goal with
  | H : ?x = _ |- context [?x] => rewrite H
  | |- context [if (?a =? ?b)%string then _ else _] =>
      destruct (a =? b)%string eqn:?
  | |- context [(?a =? ?b)%string && _] => destruct (a =? b)%string eqn:?
  | |- context [negb (?a =? ?b)%string] => destruct (a =? b)%string eqn:?
  | |- context [(?a =? ?b)%Z && _] => destruct (a =? b)%Z eqn:?
  | |- context [_ && (?a =? ?b)%string] => destruct (a =? b)%string eqn:?
  | |- context [match urlScheme ?u with _ => _ end] =>
      destruct (urlScheme u) eqn:?
  | |- context [match Atoi ?u with _ => _ end] => destruct (Atoi u) eqn:?
  end; cbn.

Ltac validate_cases := unfold validateConfig; cbn; repeat validate_step.

(** The port of a validated configuration: the port of the file when that
    is not 0, else the integer of the variable PORT when that is set, and 8080
    when this is still 0 and no host is given; so a validated configuration
    without a host always has a port. *)
Theorem validate_sets_port (c c' : Configuration) :
  validateConfig Getenv urlScheme Atoi c = Ok c' ->
  let given :=
    if (apiPort (API c) =? 0) && negb (Getenv "PORT" =? "")%string
    then match Atoi (Getenv "PORT") with inl p => p | inr _ => 0 end
    else apiPort (API c) in
  apiPort (API c') =
    (if (given =? 0) && (apiHost (API c) =? "")%string then 8080 else given) /\
  (apiHost (API c') = ""%string -> apiPort (API c') <> 0).
Proof.
  cbv zeta. validate_cases; intros E; inversion E; subst c'; cbn in *;
    repeat validate_step; eqb_facts; (split; [|intros Hh]);
    congruence || lia.
Qed.

(** Validation only fills in what is missing: the connection URL comes from
    the environment only when the file gives none, a driver and a non-zero
    port of the file are kept, and nothing else is changed. *)
Theorem validate_keeps_settings (c c' : Configuration) :
  validateConfig Getenv urlScheme Atoi c = Ok c' ->
  dbConnURL (DB c') =
    (if (dbConnURL (DB c) =? "")%string then Getenv "DATABASE_URL"
     else dbConnURL (DB c)) /\
  (dbDriver (DB c) <> ""%string -> dbDriver (DB c') = dbDriver (DB c)) /\
  (apiPort (API c) <> 0 -> apiPort (API c') = apiPort (API c)) /\
  apiHost (API c') = apiHost (API c) /\
  dbNamespace (DB c') = dbNamespace (DB c) /\
  dbAutomigrate (DB c') = dbAutomigrate (DB c) /\
  SiteURL c' = SiteURL c /\ JWT c' = JWT c /\ Log c' = Log c /\
  Mailer c' = Mailer c /\ Payment c' = Payment c /\
  Downloads c' = Downloads c /\ Coupons c' = Coupons c /\
  Webhooks c' = Webhooks c.
Proof.
  validate_cases; intros E; inversion E; subst c'; cbn in *; eqb_facts;
    repeat split; intros; congruence.
Qed.

(** Validating a validated configuration changes nothing. *)
Theorem validate_idempotent (c c' : Configuration) :
  validateConfig Getenv urlScheme Atoi c = Ok c' ->
  validateConfig Getenv urlScheme Atoi c' = Ok c'.
Proof.
  unfold validateConfig at 1; cbn; repeat validate_step;
    intros E; inversion E; subst c'; clear E;
    validate_cases; eqb_facts; subst; cbn in *;
    try reflexivity; try congruence; try lia.
Qed.

(** Validation fails in two cases only: the driver is missing and the
    connection URL in force does not parse, or the port is missing and the
    variable PORT is set to something that is not an integer. *)
Theorem validate_fails_iff (c : Configuration) :
  let url :=
    if (dbConnURL (DB c) =? "")%string then Getenv "DATABASE_URL"
    else dbConnURL (DB c) in
  (exists msg, validateConfig Getenv urlScheme Atoi c = Err msg) <->
  (dbDriver (DB c) = ""%string /\ url <> ""%string /\
   exists e, urlScheme url = inr e) \/
  (apiPort (API c) = 0 /\ Getenv "PORT" <> ""%string /\
   exists e, Atoi (Getenv "PORT") = inr e).
Proof.
  cbv zeta. validate_cases; cbn in *; eqb_facts; split; intros H;
    first
      [ exfalso; congruence
      | destruct H as (msg & E); discriminate E
      | destruct H as [(H1 & H2 & e & H3) | (H1 & H2 & e & H3)];
        exfalso; congruence
      | eexists; reflexivity
      | left; repeat split; eauto; congruence
      | right; repeat split; eauto; congruence ].
Qed.

End ConfProperties.

(** ** The authentication header *)

Section APIProperties.

Import API.

Variable Token : Type.
Variable ExpiresAt : Token -> Z.
Variable ParseWithClaims : string -> parsed Token.
Variable now : Z.

Lemma dropPrefix_spec (p s r : string) :
  dropPrefix p s = Some r <-> s = (p ++ r)%string.
Proof.
  revert s. induction p as [|a p IH]; intros s; simpl.
  - split; [intros E; now inversion E | intros ->; reflexivity].
  - destruct s as [|b s].
    + split; discriminate.
    + destruct (Ascii.eqb_spec a b) as [->|N].
      * rewrite IH. split; [intros ->; reflexivity | intros E; now inversion E].
      * split; [discriminate | intros E; inversion E; congruence].
Qed.

Lemma bearer_body (rest token : string) :
  match dropPrefix "earer " rest with
  | Some tok => if negb (tok =? "")%string && noSpace tok then Some tok else None
  | None => None
  end = Some token <->
  rest = ("earer " ++ token)%string /\ token <> ""%string /\
  noSpace token = true.
Proof.
  destruct (dropPrefix "earer " rest) as [tok|] eqn:D.
  - destruct (String.eqb_spec tok "") as [Et|Nt];
      destruct (noSpace tok) eqn:Hs; cbn [negb andb]; split;
      try discriminate;
      try (intros (E & Hne & Hs'); apply dropPrefix_spec in E;
           rewrite D in E; inversion E; subst; congruence).
    intros E. inversion E. subst. apply dropPrefix_spec in D. auto.
  - split; [discriminate|]. intros (E & _).
    apply dropPrefix_spec in E. congruence.
Qed.

Lemma bearerToken_iff (authHeader token : string) :
  bearerToken authHeader = Some token <->
  (authHeader = ("Bearer " ++ token)%string \/
   authHeader = ("bearer " ++ token)%string) /\
  token <> ""%string /\ noSpace token = true.
Proof.
  unfold bearerToken. destruct authHeader as [|c rest].
  - split; [discriminate|]. intros [[E | E] _]; discriminate E.
  - destruct (Ascii.eqb_spec c "B") as [->|NB];
      [|destruct (Ascii.eqb_spec c "b") as [->|Nb]]; cbn [orb].
    + rewrite bearer_body. split.
      * intros (-> & H). split; [left; reflexivity | exact H].
      * intros ([E | E] & H); inversion E. auto.
    + rewrite bearer_body. split.
      * intros (-> & H). split; [right; reflexivity | exact H].
      * intros ([E | E] & H); inversion E. auto.
    + split; [discriminate|]. intros ([E | E] & _); inversion E; congruence.
Qed.

(** The header matches the bearer expression exactly when it is "Bearer "
    or "bearer " followed by a non-empty token without white space, and the
    submatch is that token. *)
Theorem bearerToken_spec (authHeader token : string) :
  bearerToken authHeader = Some token <->
  (authHeader = ("Bearer " ++ token)%string \/
   authHeader = ("bearer " ++ token)%string) /\
  token <> ""%string /\ noSpace token = true.
Proof. apply bearerToken_iff. Qed.

(** A request goes on without a token exactly when it carries no
    Authorization header; a header that is present is never ignored: it is
    answered with an unauthorized error or accepted with its token, unless
    the parser panics on its token, and [withToken] panics in that case
    only. *)
Theorem withToken_unchanged_iff (authHeader : string) :
  let result := withToken Token ExpiresAt ParseWithClaims now authHeader in
  (result = Unchanged <-> authHeader = ""%string) /\
  (result = Panicked <->
   exists raw, bearerToken authHeader = Some raw /\
               ParseWithClaims raw = ParsePanic) /\
  (authHeader <> ""%string ->
   (exists msg, result = Unauthorized msg) \/
   (exists token, result = WithToken token) \/
   result = Panicked).
Proof.
  cbv zeta. unfold withToken.
  destruct (String.eqb_spec authHeader "") as [->|N].
  - split; [split; reflexivity|]. split; [|intros H; now contradiction H].
    split; [discriminate|]. intros (raw & B & _). discriminate B.
  - destruct (bearerToken authHeader) as [raw|].
    + destruct (ParseWithClaims raw) as [t|err|] eqn:P.
      * destruct (ExpiresAt t <? now).
        -- split; [split; [discriminate | contradiction]|].
           split; [|intros _; left; eauto].
           split; [discriminate|]. intros (r & B & Q). congruence.
        -- split; [split; [discriminate | contradiction]|].
           split; [|intros _; right; left; eauto].
           split; [discriminate|]. intros (r & B & Q). congruence.
      * split; [split; [discriminate | contradiction]|].
        split; [|intros _; left; eauto].
        split; [discriminate|]. intros (r & B & Q). congruence.
      * split; [split; [discriminate | contradiction]|].
        split; [|intros _; right; right; reflexivity].
        split; [intros _; eauto | reflexivity].
    + split; [split; [discriminate | contradiction]|].
      split; [|intros _; left; eauto].
      split; [discriminate|]. intros (r & B & _). discriminate B.
Qed.

(** A token reaches the handlers exactly when the header is a bearer header,
    its token parses and the token has not expired. *)
Theorem withToken_accepts_iff (authHeader : string) (token : Token) :
  withToken Token ExpiresAt ParseWithClaims now authHeader = WithToken token <->
  exists raw,
    (authHeader = ("Bearer " ++ raw)%string \/
     authHeader = ("bearer " ++ raw)%string) /\
    raw <> ""%string /\ noSpace raw = true /\
    ParseWithClaims raw = Parsed token /\ now <= ExpiresAt token.
Proof.
  unfold withToken. split.
  - destruct (String.eqb_spec authHeader ""); [discriminate|].
    destruct (bearerToken authHeader) as [raw|] eqn:B; [|discriminate].
    apply bearerToken_iff in B. destruct B as (Hh & Hne & Hs).
    destruct (ParseWithClaims raw) as [t|err|] eqn:P; try discriminate.
    destruct (Z.ltb_spec (ExpiresAt t) now); [discriminate|].
    intros E. inversion E. subst t. exists raw. auto.
  - intros (raw & Hh & Hne & Hs & P & Hexp).
    assert (B : bearerToken authHeader = Some raw)
      by (apply bearerToken_iff; auto).
    destruct (String.eqb_spec authHeader "") as [->|_].
    + destruct Hh as [E | E]; discriminate E.
    + rewrite B, P. destruct (Z.ltb_spec (ExpiresAt token) now); [lia|reflexivity].
Qed.

End APIProperties.

(** ** Counterexamples and instances *)

(** C3: a basis above [2 ^ 53] is not taxed on its exact value. *)
Lemma exclusive_tax_counterexample :
  Taxes (calculateItem (fun _ => 0) (Some (mkSettings false [mkTax 100 [] []]))
           "DE" None (mkItem 9007199254740993 "book" 0 [] 1))
  = 9007199254740992 /\
  round_half_even (9007199254740993 * 100) 100 = 9007199254740993.
Proof. vm_compute. split; reflexivity. Qed.

Lemma exclusive_tax_witness :
  includesTaxes (Some (mkSettings false [mkTax 20 [] []])) = false /\
  Taxes (calculateItem (fun _ => 0) (Some (mkSettings false [mkTax 20 [] []]))
           "DE" None (mkItem 1000 "book" 0 [] 1)) =
  sum64 (map (fun a => round_half_even (price a * percentage a) 100)
           (taxAmounts (Some (mkSettings false [mkTax 20 [] []])) "DE"
              (mkItem 1000 "book" 0 [] 1))).
Proof.
  split; [reflexivity|].
  apply (exclusive_tax (fun _ => 0) (Some (mkSettings false [mkTax 20 [] []]))
           "DE" None (mkItem 1000 "book" 0 [] 1) eq_refl).
  repeat constructor; simpl; lia.
Defined.

(** C4: without settings an item with a fixed VAT of 20% is taxed. *)
Lemma absent_settings_counterexample :
  taxAmounts None "DE" (mkItem 1000 "book" 20 [] 1) = [mkTaxAmount 1000 20] /\
  calculateItem (fun _ => 0) None "DE" None (mkItem 1000 "book" 20 [] 1) =
  mkItemPrice 1 1000 0 200 1200.
Proof. vm_compute. split; reflexivity. Qed.

(** C6: a discount base above [2 ^ 53] is not discounted on its exact
    value. *)
Lemma coupon_discount_counterexample :
  Discount (calculateItem (fun _ => 0) None "DE"
              (Some (mkCoupon (fun _ => true) (fun _ _ => true) 100 0))
              (mkItem 9007199254740993 "book" 0 [] 1))
  = 9007199254740992 /\
  round_half_even (9007199254740993 * 100) 100 = 9007199254740993.
Proof. vm_compute. split; reflexivity. Qed.

Lemma coupon_discount_witness :
  Discount (calculateItem (fun _ => 0) None "DE"
              (Some (mkCoupon (fun _ => true) (fun _ _ => true) 10 0))
              (mkItem 1000 "book" 0 [] 1)) =
  round_half_even
    (discountBase false
       (calculateItem (fun _ => 0) None "DE"
          (Some (mkCoupon (fun _ => true) (fun _ _ => true) 10 0))
          (mkItem 1000 "book" 0 [] 1)) * 10) 100.
Proof.
  apply (proj1 (proj2 (coupon_discount (fun _ => 0) None "DE"
                         (Some (mkCoupon (fun _ => true) (fun _ _ => true) 10 0))
                         (mkItem 1000 "book" 0 [] 1)))
           (mkCoupon (fun _ => true) (fun _ _ => true) 10 0) eq_refl eq_refl);
    vm_compute; intuition discriminate.
Defined.

(** C8: of -1.5 [rint] returns no -2, whatever the conversion of a negative
    number to [uint64] gives: 0 when it saturates, [2 ^ 64 - 2] when it wraps
    around; with a saturating conversion the float is not even rounded away
    from -1. *)
Lemma rint_negative_counterexample :
  let x := S754_finite true 6755399441055744 (-52) in
  rint (fun _ => 0) x = 0 /\
  rint_float (fun _ => 0) x = S754_finite true 4503599627370496 (-52) /\
  rint (fun f => match truncate f with Some z => z | None => 0 end) x =
    18446744073709551614 /\
  round_half_even_signed (numerator x) (denominator x) = -2.
Proof. vm_compute. repeat split; reflexivity. Qed.

Lemma rint_rounds_half_to_even_witness :
  bounded prec emax 5629499534213120 (-51) = true /\
  rint (fun _ => 0) (S754_finite false 5629499534213120 (-51)) =
  round_half_even 5629499534213120 (2 ^ 51).
Proof.
  split; [reflexivity|].
  apply (rint_rounds_half_to_even (fun _ => 0) 5629499534213120 (-51) eq_refl).
  reflexivity.
Defined.

Lemma discount_above_base_wraps_witness :
  U64.in_range 1000 /\
  U64.in_range
    (Total (calculateItem (fun _ => 0) (Some (mkSettings false [mkTax 20 [] []]))
              "DE" (Some (mkCoupon (fun _ => true) (fun _ _ => true) 250 0))
              (mkItem 1000 "book" 0 [] 1))).
Proof.
  assert (H : U64.in_range 1000) by (unfold U64.in_range, U64.modulus; lia).
  split; [exact H|].
  apply (discount_above_base_wraps (fun _ => 0)
           (Some (mkSettings false [mkTax 20 [] []])) "DE"
           (Some (mkCoupon (fun _ => true) (fun _ _ => true) 250 0))
           (mkItem 1000 "book" 0 [] 1) H).
Defined.

Lemma rint_of_int_witness : rint (fun _ => 0) (of_int 1999) = 1999.
Proof. apply (rint_of_int (fun _ => 0) 1999). lia. Defined.

Lemma percentOf_zero_and_hundred_witness :
  percentOf (fun _ => 0) 1999 0 = 0 /\ percentOf (fun _ => 0) 1999 100 = 1999.
Proof. apply (percentOf_zero_and_hundred (fun _ => 0) 1999); lia. Defined.

Lemma percentOf_le_amount_witness :
  0 <= percentOf (fun _ => 0) 1999 15 <= 1999.
Proof. apply (percentOf_le_amount (fun _ => 0) 1999 15); lia. Defined.

Lemma total_without_wrap_witness :
  let c := mkCoupon (fun _ => true) (fun _ _ => true) 10 0 in
  let ip := calculateItem (fun _ => 0) (Some (mkSettings false [mkTax 20 [] []]))
              "DE" (Some c) (mkItem 1000 "book" 0 [] 1) in
  0 <= Discount ip <= Subtotal ip.
Proof.
  apply (total_without_wrap (fun _ => 0)
           (Some (mkSettings false [mkTax 20 [] []])) "DE"
           (mkCoupon (fun _ => true) (fun _ _ => true) 10 0)
           (mkItem 1000 "book" 0 [] 1) eq_refl); simpl; lia.
Defined.

Lemma inclusive_tax_witness :
  let st := mkSettings true [mkTax 20 [] []] in
  let item := mkItem 1200 "book" 0 [] 1 in
  Taxes (calculateItem (fun _ => 0) (Some st) "DE" None item) =
  sum64 (map (fun a => percentOf (fun _ => 0)
                         (backOut (fun _ => 0) (price a) (percentage a))
                         (percentage a))
           (taxAmounts (Some st) "DE" item)).
Proof.
  apply (inclusive_tax (fun _ => 0) (mkSettings true [mkTax 20 [] []]) "DE" None
           (mkItem 1200 "book" 0 [] 1) eq_refl).
Defined.

Lemma fixed_vat_overrides_witness :
  taxAmounts (Some (mkSettings false [mkTax 20 [] []])) "DE"
    (mkItem 1000 "book" 7 [mkItem 400 "part" 0 [] 1] 1) = [mkTaxAmount 1000 7].
Proof.
  apply (fixed_vat_overrides (fun _ => 0) false [mkTax 20 [] []] [] "DE" None
           1000 1 7 "book" [mkItem 400 "part" 0 [] 1] []).
  lia.
Defined.

Lemma plain_pricing_witness :
  PTotal (CalculatePrice (fun _ => 0) None "DE" "EUR" None
            [mkItem 1000 "book" 0 [] 2; mkItem 250 "pen" 0 [] 3]) =
  PSubtotal (CalculatePrice (fun _ => 0) None "DE" "EUR" None
               [mkItem 1000 "book" 0 [] 2; mkItem 250 "pen" 0 [] 3]).
Proof.
  apply (plain_pricing (fun _ => 0) "DE" "EUR"
           [mkItem 1000 "book" 0 [] 2; mkItem 250 "pen" 0 [] 3]).
  repeat constructor.
Defined.

Lemma validate_sets_port_witness :
  Conf.validateConfig
    (fun k => if (k =? "PORT")%string then "9999"%string else ""%string)
    (fun _ => inr ""%string) (fun _ => inl 9999) emptyConfiguration =
  Conf.Ok (Conf.setPort emptyConfiguration 9999) /\
  Conf.apiPort (Conf.API (Conf.setPort emptyConfiguration 9999)) = 9999.
Proof.
  split; [reflexivity|].
  apply (validate_sets_port
           (fun k => if (k =? "PORT")%string then "9999"%string else ""%string)
           (fun _ => inr ""%string) (fun _ => inl 9999) emptyConfiguration
           (Conf.setPort emptyConfiguration 9999) eq_refl).
Defined.

Lemma validate_keeps_settings_witness :
  Conf.apiHost (Conf.API (Conf.setPort emptyConfiguration 8080)) =
  Conf.apiHost (Conf.API emptyConfiguration).
Proof.
  apply (validate_keeps_settings (fun _ => ""%string) (fun _ => inr ""%string)
           (fun _ => inr ""%string) emptyConfiguration
           (Conf.setPort emptyConfiguration 8080) eq_refl).
Defined.

Lemma validate_idempotent_witness :
  Conf.validateConfig (fun _ => ""%string) (fun _ => inr ""%string)
    (fun _ => inr ""%string) (Conf.setPort emptyConfiguration 8080) =
  Conf.Ok (Conf.setPort emptyConfiguration 8080).
Proof.
  apply (validate_idempotent (fun _ => ""%string) (fun _ => inr ""%string)
           (fun _ => inr ""%string) emptyConfiguration
           (Conf.setPort emptyConfiguration 8080) eq_refl).
Defined.
